(** * Futoshiki solver: a shallow embedding of [Cell.py] and [Solver.py]

    The solver is a recursive backtracking search over snapshots of a
    Futoshiki grid.  Cells are Python objects held in a list of lists;
    here a snapshot is a value, a reference to a cell is its position in
    the grid, and every function that can raise returns a [res]. *)

From stdpp Require Import base list numbers.

Local Open Scope Z_scope.

(** ** The fragment of Python the two files rely on *)

Module Py.

(** The exceptions the code can raise: a call with the wrong number of
    arguments or a subscript on the wrong kind of value is a [TypeError],
    a subscript out of range an [IndexError]. *)
Inductive exn : Type :=
  | TypeError
  | IndexError.

Inductive res (A : Type) : Type :=
  | Ok (a : A)
  | Raise (e : exn).

Arguments Ok {A} a.
Arguments Raise {A} e.

Definition bind {A B : Type} (m : res A) (k : A → res B) : res B :=
  match m with
  | Ok a => k a
  | Raise e => Raise e
  end.

(** [for x in l: s = body(s, x)], stopping at the first exception. *)
Fixpoint foldM {A S : Type} (body : S → A → res S) (s : S) (l : list A) : res S :=
  match l with
  | [] => Ok s
  | x :: l' => bind (body s x) (λ s', foldM body s' l')
  end.

(** [[f(x) for x in l]], stopping at the first exception. *)
Fixpoint mapM {A B : Type} (f : A → res B) (l : list A) : res (list B) :=
  match l with
  | [] => Ok []
  | x :: l' => bind (f x) (λ y, bind (mapM f l') (λ ys, Ok (y :: ys)))
  end.

(** A dynamically typed value, as far as constraints need one: an integer
    or a tuple (or list) of values. *)
#[warnings="-register-all"]
Inductive pyval : Type :=
  | PInt (z : Z)
  | PTuple (items : list pyval).

(** The position a Python index [i] denotes in a sequence of length [len]:
    negative indices count from the end. *)
Definition norm_index (len : nat) (i : Z) : res nat :=
  let n := Z.of_nat len in
  let k := if i <? 0 then i + n else i in
  if (k <? 0) || (n <=? k) then Raise IndexError else Ok (Z.to_nat k).

(** [l[i]] for a list [l] and an integer [i]. *)
Definition index {A : Type} (l : list A) (i : Z) : res A :=
  bind (norm_index (length l) i) (λ k,
    match l !! k with
    | Some a => Ok a
    | None => Raise IndexError
    end).

(** [v[i]] for a dynamically typed [v]: an integer is not subscriptable. *)
Definition getitem (v : pyval) (i : Z) : res pyval :=
  match v with
  | PInt _ => Raise TypeError
  | PTuple items => index items i
  end.

(** [l[v]] for a list [l] and a dynamically typed index [v]: list indices
    must be integers. *)
Definition index_by {A : Type} (l : list A) (v : pyval) : res A :=
  match v with
  | PInt i => index l i
  | PTuple _ => Raise TypeError
  end.

(** [v == z] for a dynamically typed [v] and an integer [z]; comparing a
    tuple with an integer is just false. *)
Definition eq_int (v : pyval) (z : Z) : bool :=
  match v with
  | PInt i => i =? z
  | PTuple _ => false
  end.

(** [range(a, b)]. *)
Definition range (a b : Z) : list Z := seqZ a (b - a).

(** [x in l]. *)
Definition mem (x : Z) (l : list Z) : bool := bool_decide (x ∈ l).

(** [l.remove(x)] on a list known to contain [x]: drops the first
    occurrence. *)
Fixpoint remove (x : Z) (l : list Z) : list Z :=
  match l with
  | [] => []
  | y :: l' => if y =? x then l' else y :: remove x l'
  end.

(** [list(set(a).difference(set(b)))].  CPython lists the elements of a set
    of small non-negative integers in ascending order; the lists the solver
    builds are ascending and duplicate-free, on which this definition gives
    that same order.  The statements below depend on membership and length
    only. *)
Definition set_difference (a b : list Z) : list Z :=
  list_difference (remove_dups a) b.

(** [len(set(l)) != len(l)]: some value occurs twice in [l]. *)
Definition has_duplicates (l : list Z) : bool :=
  negb (length (remove_dups l) =? length l)%nat.

(** [[i for i in l if i != 0]]. *)
Definition nonzero (l : list Z) : list Z := filter (λ i, i ≠ 0) l.

End Py.

Export Py.

Notation "'let!' x ':=' m 'in' k" := (Py.bind m (λ x, k))
  (at level 10, x pattern, m at level 100, k at level 200,
   format "'[' 'let!'  x  :=  m  'in'  '/' k ']'").

(** ** [Cell.py] *)

Module Cell.

Record cell : Type := mk_cell {
  row : Z;
  col : Z;
  val : Z;
  possibles : list Z
}.

(** [__init__(self, row, col, val)]: every cell starts with the candidates
    [[1,2,3,4,5]], whatever the size of the grid. *)
Definition init (r c v : Z) : cell :=
  {| row := r; col := c; val := v; possibles := [1; 2; 3; 4; 5] |}.

(** The call [cell(a1, ..., ak)]: [__init__] takes exactly three arguments
    besides [self], any other number raises [TypeError].  The fields of a
    cell are integers here, as in every call of the two files; Python
    would also store three arguments of another type, a call the code
    never makes and this definition does not tell apart. *)
Definition new (args : list pyval) : res cell :=
  match args with
  | [PInt r; PInt c; PInt v] => Ok (init r c v)
  | _ => Raise TypeError
  end.

Definition getRow (c : cell) : Z := row c.

Definition setRow (c : cell) (r : Z) : cell :=
  {| row := r; col := col c; val := val c; possibles := possibles c |}.

Definition getCol (c : cell) : Z := col c.

Definition setCol (c : cell) (k : Z) : cell :=
  {| row := row c; col := k; val := val c; possibles := possibles c |}.

Definition getVal (c : cell) : Z := val c.

Definition setVal (c : cell) (v : Z) : cell :=
  {| row := row c; col := col c; val := v; possibles := possibles c |}.

Definition getPossibilities (c : cell) : list Z := possibles c.

Definition setPossibilities (c : cell) (l : list Z) : cell :=
  {| row := row c; col := col c; val := val c; possibles := l |}.

(** [clone(self)]: [return cell(self.row, self.col, self.val, self.possibles)],
    a call with four arguments. *)
Definition clone (c : cell) : res cell :=
  new [PInt (row c); PInt (col c); PInt (val c); PTuple (PInt <$> possibles c)].

End Cell.

Export Cell.

(** ** The snapshot

    [Snapshot.py] is imported by the solver but is not among the sources;
    the solver uses its attributes [rows], [cells] and [constraints] and
    its methods [clone], [unsolvedCells], [cellsByRow], [cellsByCol],
    [setCellVal] and [getConstraints]. *)

Module Snapshot.

(** Modelled from the spec: the board of section 3, "dimension N, a grid
    of N x N Cells, and the constraint list".  The grid is the list of
    lists [snapshot.cells] the solver indexes; a constraint is kept as the
    Python value it is, since the solver subscripts it in two ways. *)
Record snapshot : Type := mk_snapshot {
  rows : Z;
  cells : list (list cell);
  constraints : list pyval
}.

(** A cell object is identified by where it sits in the grid. *)
Abbreviation pos := (nat * nat)%type (only parsing).

(** A reference handed out by the snapshot: the cell's identity and its
    attributes at that moment. *)
Abbreviation ref := (pos * cell)%type (only parsing).

Definition at_ (s : snapshot) (p : pos) : option cell :=
  cells s !! p.1 ≫= λ r, r !! p.2.

(** Mutating the cell object at [p] in place. *)
Definition update_at (s : snapshot) (p : pos) (f : cell → cell) : snapshot :=
  {| rows := rows s;
     cells := alter (alter f p.2) p.1 (cells s);
     constraints := constraints s |}.

Definition addressed (s : snapshot) : list (list ref) :=
  imap (λ i r, imap (λ j c, ((i, j), c)) r) (cells s).

(** Modelled from the spec: [cellsInRow(r)] of section 4.1, "ordered
    sequences of references into the grid, ordered by index". *)
Definition cellsByRow (s : snapshot) (r : Z) : res (list ref) :=
  index (addressed s) r.

(** Modelled from the spec: [cellsInColumn(c)] of section 4.1. *)
Definition cellsByCol (s : snapshot) (c : Z) : res (list ref) :=
  mapM (λ r, index r c) (addressed s).

(** Modelled from the spec: [unsolvedCells()] of section 4.1, "a sequence
    of cells with value == 0, order is row-major scan order". *)
Definition unsolvedCells (s : snapshot) : list ref :=
  filter (λ rc, val rc.2 = 0) (mjoin (addressed s)).

(** Modelled from the spec: [setValue(r, c, v)] of section 4.1, which
    "assigns": [self.cells[r][c].setVal(v)]. *)
Definition setCellVal (s : snapshot) (r c v : Z) : res snapshot :=
  let! line := index (addressed s) r in
  let! rc := index line c in
  Ok (update_at s rc.1 (λ x, setVal x v)).

(** Modelled from the spec: [clone()] of section 4.1, which "deep-copies
    the grid (cells and domains), keeps the constraint reference shared". *)
Definition copy_cell (c : cell) : cell :=
  {| row := row c; col := col c; val := val c; possibles := possibles c |}.

Definition clone (s : snapshot) : snapshot :=
  {| rows := rows s;
     cells := map (map copy_cell) (cells s);
     constraints := constraints s |}.

End Snapshot.

Export Snapshot.

(** ** [Solver.py] *)

Module Solver.

Section WithAccessor.

(** [snapshot.getConstraints()] is the one method of the absent module the
    spec does not describe; [update_possibilities] is defined for any
    accessor. *)
Variable getConstraints : snapshot → list pyval.

(** Lines 64-68 and 159-163: the values along a row and a column,
    [row[j].getVal()] and [col[j].getVal()] for [j] in [range(snapshot.rows)]. *)
Definition line_vals (row col : list ref) (n : Z) : res (list Z * list Z) :=
  let! vs := mapM (λ j, let! a := index row j in
                        let! b := index col j in
                        Ok (getVal a.2, getVal b.2)) (range 0 n) in
  Ok (vs.*1, vs.*2).

(** Lines 61-73: row and column exclusion for the cell [c]. *)
Definition eliminate (s : snapshot) (c : cell) : res cell :=
  let! row := cellsByRow s (Cell.row c) in
  let! col := cellsByCol s (Cell.col c) in
  let! vs := line_vals row col (rows s) in
  let c := setPossibilities c
             (set_difference (getPossibilities c) (nonzero vs.1)) in
  let c := setPossibilities c
             (set_difference (getPossibilities c) (nonzero vs.2)) in
  Ok c.

(** [k[e][0] == cell.row and k[e][1] == cell.col], the second comparison
    evaluated only when the first holds. *)
Definition is_endpoint (k : pyval) (e : Z) (c : cell) : res bool :=
  let! ke := getitem k e in
  let! ke0 := getitem ke 0 in
  if eq_int ke0 (Cell.row c) then
    let! ke1 := getitem ke 1 in
    Ok (eq_int ke1 (Cell.col c))
  else Ok false.

(** [snapshot.cells[k[e][0]][k[e][1]]]. *)
Definition endpoint (s : snapshot) (k : pyval) (e : Z) : res cell :=
  let! ke := getitem k e in
  let! ke0 := getitem ke 0 in
  let! line := index_by (cells s) ke0 in
  let! ke1 := getitem ke 1 in
  index_by line ke1.

(** Lines 80-109, the body of the loop over the constraints, for the
    constraint [k].  [new_possibilities] is the cell's own list until it is
    rebound to a fresh range. *)
Definition tighten (s : snapshot) (c : cell) (k : pyval) : res cell :=
  let new_possibilities := getPossibilities c in
  let! smaller_here := is_endpoint k 0 c in
  let! st :=
    (if smaller_here then
       let! bigger_cell := endpoint s k 1 in
       let new_possibilities :=
         if negb (getVal bigger_cell =? 0) then range 1 (getVal bigger_cell)
         else if mem (rows s) new_possibilities
              then remove (rows s) new_possibilities
              else new_possibilities in
       Ok (setPossibilities c new_possibilities, new_possibilities)
     else Ok (c, new_possibilities)) in
  let c := st.1 in
  let new_possibilities := st.2 in
  let! greater_here := is_endpoint k 1 c in
  if greater_here then
    let! smaller_cell := endpoint s k 0 in
    let new_possibilities :=
      if negb (getVal smaller_cell =? 0)
      then range (getVal smaller_cell + 1) (rows s + 1)
      else if mem 1 new_possibilities
           then remove 1 new_possibilities
           else new_possibilities in
    Ok (setPossibilities c new_possibilities)
  else Ok c.

(** Lines 116-124 and 134-142: the loop over the cells of a row or column,
    left at once when nothing survives; [p] is the cell under
    consideration, skipped by identity. *)
Fixpoint cross_out (p : pos) (new_possibilities : list Z) (line : list ref)
    : list Z :=
  match line with
  | [] => new_possibilities
  | rc :: line' =>
      let new_possibilities :=
        if bool_decide (rc.1 ≠ p)
        then set_difference new_possibilities (getPossibilities rc.2)
        else new_possibilities in
      if (length new_possibilities =? 0)%nat then new_possibilities
      else cross_out p new_possibilities line'
  end.

(** Lines 112-127 and 130-145: the hidden single of the cell at [p] along
    [line], fetched only when the cell has more than one candidate. *)
Definition hidden_single (p : pos) (c : cell) (line : res (list ref))
    : res cell :=
  let new_possibilities := getPossibilities c in
  if (1 <? length new_possibilities)%nat then
    let! cells_of_line := line in
    let new_possibilities := cross_out p new_possibilities cells_of_line in
    if (length new_possibilities =? 1)%nat
    then Ok (setPossibilities c new_possibilities)
    else Ok c
  else Ok c.

(** Lines 59-145: the body of the loop over the unsolved cells, for the
    cell object at [p], whose attributes are [c] on entry.  Nothing but
    that cell's candidates is written; every other cell is read from [s]. *)
Definition update_cell (s : snapshot) (p : pos) (c : cell) : res cell :=
  let! c := eliminate s c in
  let! c := foldM (tighten s) c (getConstraints s) in
  let! c := hidden_single p c (cellsByRow s (Cell.row c)) in
  hidden_single p c (cellsByCol s (Cell.col c)).

Definition update_possibilities (s : snapshot) : res snapshot :=
  foldM (λ s p,
           match at_ s p with
           | Some c =>
               let! c' := update_cell s p c in
               Ok (update_at s p (λ _, c'))
           | None => Ok s
           end)
        s (unsolvedCells s).*1.

End WithAccessor.

(** Lines 155-167 of [checkConsistency]: [true] when no row and no column
    among [indices] holds a nonzero value twice. *)
Fixpoint check_lines (s : snapshot) (indices : list Z) : res bool :=
  match indices with
  | [] => Ok true
  | i :: indices' =>
      let! row := cellsByRow s i in
      let! col := cellsByCol s i in
      let! vs := line_vals row col (rows s) in
      if has_duplicates (nonzero vs.1) || has_duplicates (nonzero vs.2)
      then Ok false
      else check_lines s indices'
  end.

(** [snapshot.cells[k[a]][k[b]].getVal()]. *)
Definition flat_endpoint (s : snapshot) (k : pyval) (a b : Z) : res Z :=
  let! ka := getitem k a in
  let! line := index_by (cells s) ka in
  let! kb := getitem k b in
  let! c := index_by line kb in
  Ok (getVal c).

(** Lines 169-175. *)
Fixpoint check_constraints (s : snapshot) (ks : list pyval) : res bool :=
  match ks with
  | [] => Ok true
  | k :: ks' =>
      let! cell_1 := flat_endpoint s k 0 1 in
      let! cell_2 := flat_endpoint s k 2 3 in
      if (0 <? cell_1) && (0 <? cell_2) && (cell_2 <=? cell_1)
      then Ok false
      else check_constraints s ks'
  end.

Definition checkConsistency (s : snapshot) : res bool :=
  let! distinct := check_lines s (range 0 (rows s)) in
  if distinct then check_constraints s (constraints s) else Ok false.

Definition isComplete (s : snapshot) : bool :=
  forallb (forallb (λ c, negb (getVal c =? 0))) (cells s).

Section Search.

Variable getConstraints : snapshot → list pyval.

(** Lines 29-40: the loop over the candidates.  [recurse] is the recursive
    call; [None] stands for a call that has not returned within the fuel. *)
Fixpoint try_candidates (recurse : snapshot → option (res bool))
    (new_snapshot : snapshot) (r c : Z) (candidates : list Z)
    : option (res bool) :=
  match candidates with
  | [] => Some (Ok false)
  | possibility :: candidates' =>
      match setCellVal new_snapshot r c possibility with
      | Raise e => Some (Raise e)
      | Ok new_snapshot =>
          match checkConsistency new_snapshot with
          | Raise e => Some (Raise e)
          | Ok false => try_candidates recurse new_snapshot r c candidates'
          | Ok true =>
              match recurse new_snapshot with
              | None => None
              | Some (Raise e) => Some (Raise e)
              | Some (Ok true) => Some (Ok true)
              | Some (Ok false) =>
                  try_candidates recurse new_snapshot r c candidates'
              end
          end
      end
  end.

(** [solve(snapshot, screen)].  The calls to [pygame] and to
    [Futoshiki_IO.displayPuzzle] only draw; the screen is left out.  The
    recursion is on [fuel], the number of nested calls allowed. *)
Fixpoint solve (fuel : nat) (s : snapshot) : option (res bool) :=
  match fuel with
  | O => None
  | S fuel' =>
      match (if isComplete s then checkConsistency s else Ok false) with
      | Raise e => Some (Raise e)
      | Ok true => Some (Ok true)
      | Ok false =>
          if negb (isComplete s) then
            match index (unsolvedCells s) 0 with
            | Raise e => Some (Raise e)
            | Ok next_cell =>
                let new_snapshot := Snapshot.clone s in
                match update_possibilities getConstraints new_snapshot with
                | Raise e => Some (Raise e)
                | Ok new_snapshot =>
                    try_candidates (solve fuel') new_snapshot
                      (Cell.row next_cell.2) (Cell.col next_cell.2)
                      (possibles next_cell.2)
                end
            end
          else Some (Ok false)
      end
  end.

End Search.

End Solver.

Export Solver.

(** ** Well-formed boards and what the statements speak of *)

Module Board.

(** What identifies a cell and what it holds, without its candidates. *)
Definition erase (c : cell) : Z * Z * Z := (row c, col c, val c).

Definition skeleton (s : snapshot) : list (list (Z * Z * Z)) :=
  map (map erase) (cells s).

(** An [n] by [n] grid whose cells know where they are. *)
Record grid (n : nat) (s : snapshot) : Prop := mk_grid {
  grid_rows : rows s = Z.of_nat n;
  grid_height : length (cells s) = n;
  grid_width : ∀ i r, cells s !! i = Some r → length r = n;
  grid_addr : ∀ i j c, at_ s (i, j) = Some c →
              row c = Z.of_nat i ∧ col c = Z.of_nat j
}.

(** Values in [[0, M]] and candidates in [[1, M]]. *)
Definition in_range (M : Z) (s : snapshot) : Prop :=
  ∀ p c, at_ s p = Some c →
    0 ≤ val c ≤ M ∧ ∀ x, x ∈ possibles c → 1 ≤ x ≤ M.

(** The number of cells without a value. *)
Definition unsolved_count (s : snapshot) : nat :=
  length (filter (λ e, e.2 = 0) (mjoin (skeleton s))).

(** The board [s] with the value [v] written into the cell at [p]. *)
Definition assign (s : snapshot) (p : pos) (v : Z) : snapshot :=
  update_at s p (λ x, setVal x v).

(** A constraint stored as the flat tuple [(r1, c1, r2, c2)] of positions
    of an [n] by [n] grid, the way [checkConsistency] subscripts it. *)
Definition flat (n : nat) (k : pyval) (lesser greater : pos) : Prop :=
  k = PTuple [PInt (Z.of_nat lesser.1); PInt (Z.of_nat lesser.2);
              PInt (Z.of_nat greater.1); PInt (Z.of_nat greater.2)] ∧
  (lesser.1 < n)%nat ∧ (lesser.2 < n)%nat ∧
  (greater.1 < n)%nat ∧ (greater.2 < n)%nat.

(** A constraint handed out as the pair [((r1, c1), (r2, c2))], the way
    [update_possibilities] subscripts it. *)
Definition paired (n : nat) (k : pyval) (lesser greater : pos) : Prop :=
  k = PTuple [PTuple [PInt (Z.of_nat lesser.1); PInt (Z.of_nat lesser.2)];
              PTuple [PInt (Z.of_nat greater.1); PInt (Z.of_nat greater.2)]] ∧
  (lesser.1 < n)%nat ∧ (lesser.2 < n)%nat ∧
  (greater.1 < n)%nat ∧ (greater.2 < n)%nat.

(** Section 4.3 (a): in every row and every column the nonzero values
    are pairwise distinct. *)
Definition lines_distinct (s : snapshot) : Prop :=
  (∀ i j j' c c', at_ s (i, j) = Some c → at_ s (i, j') = Some c' →
     val c ≠ 0 → val c = val c' → j = j') ∧
  (∀ i i' j c c', at_ s (i, j) = Some c → at_ s (i', j) = Some c' →
     val c ≠ 0 → val c = val c' → i = i').

(** Section 4.3 (b): a constraint with both endpoints nonzero has its
    lesser value strictly below its greater value. *)
Definition constraints_hold (n : nat) (s : snapshot) : Prop :=
  ∀ k lesser greater lo hi,
    k ∈ constraints s → flat n k lesser greater →
    at_ s lesser = Some lo → at_ s greater = Some hi →
    val lo ≠ 0 → val hi ≠ 0 → val lo < val hi.

(** Row [i] and column [i] each hold no nonzero value twice. *)
Definition line_ok (s : snapshot) (i : nat) : Prop :=
  (∀ j j' c c', at_ s (i, j) = Some c → at_ s (i, j') = Some c' →
     val c ≠ 0 → val c = val c' → j = j') ∧
  (∀ j j' c c', at_ s (j, i) = Some c → at_ s (j', i) = Some c' →
     val c ≠ 0 → val c = val c' → j = j').

(** Candidates between [1] and [M]. *)
Definition dom_ok (M : Z) (l : list Z) : Prop := ∀ x, x ∈ l → 1 ≤ x ≤ M.

(** The board [s'] has the cells of [s] and keeps every value [s] holds. *)
Definition extends (s s' : snapshot) : Prop :=
  ∀ p c, at_ s p = Some c →
    ∃ c', at_ s' p = Some c' ∧ row c' = row c ∧ col c' = col c ∧
          (val c ≠ 0 → val c' = val c).

(** Section 4.5, steps 4 and 5, in the spec's words: every candidate [v]
    is tried on a board of its own, [board_of v]; the first one that is
    consistent and solvable ends the loop. *)
Fixpoint first_success (recurse : snapshot → option (res bool))
    (board_of : Z → snapshot) (candidates : list Z) : option (res bool) :=
  match candidates with
  | [] => Some (Ok false)
  | v :: candidates' =>
      match checkConsistency (board_of v) with
      | Raise e => Some (Raise e)
      | Ok false => first_success recurse board_of candidates'
      | Ok true =>
          match recurse (board_of v) with
          | None => None
          | Some (Raise e) => Some (Raise e)
          | Some (Ok true) => Some (Ok true)
          | Some (Ok false) => first_success recurse board_of candidates'
          end
      end
  end.

(** The candidates of the cells of [line] other than the cell at [p]. *)
Definition others (p : pos) (line : list ref) : list Z :=
  mjoin ((λ rc : ref, possibles rc.2) <$> filter (λ rc : ref, rc.1 ≠ p) line).

(** Deciding the shape of a board, its ranges and its constraints. *)
Definition gridb (n : nat) (s : snapshot) : bool :=
  (rows s =? Z.of_nat n) && (length (cells s) =? n)%nat &&
  forallb (λ r, (length r =? n)%nat) (cells s) &&
  forallb (forallb (λ rc : ref,
             (row rc.2 =? Z.of_nat rc.1.1) && (col rc.2 =? Z.of_nat rc.1.2)))
          (addressed s).

Definition in_rangeb (M : Z) (s : snapshot) : bool :=
  forallb (forallb (λ c,
             (0 <=? val c) && (val c <=? M) &&
             forallb (λ x, (1 <=? x) && (x <=? M)) (possibles c)))
          (cells s).

Definition inb (n : nat) (z : Z) : bool := (0 <=? z) && (z <? Z.of_nat n).

Definition flatb (n : nat) (k : pyval) : bool :=
  match k with
  | PTuple [PInt a; PInt b; PInt c; PInt d] =>
      inb n a && inb n b && inb n c && inb n d
  | _ => false
  end.

Definition pairedb (n : nat) (k : pyval) : bool :=
  match k with
  | PTuple [PTuple [PInt a; PInt b]; PTuple [PInt c; PInt d]] =>
      inb n a && inb n b && inb n c && inb n d
  | _ => false
  end.

End Board.

Export Board.

(** ** Boards and accessors to run the solver on *)

Module Examples.

(** A board whose cells are built by [cell(i, j, 0)] and then given the
    values of the puzzle. *)
Definition board (n : Z) (vals : list (list Z)) (ks : list pyval) : snapshot :=
  {| rows := n;
     cells := imap (λ i r, imap (λ j v,
                setVal (Cell.init (Z.of_nat i) (Z.of_nat j) 0) v) r) vals;
     constraints := ks |}.

(** An accessor that hands out the constraint list as it is stored. *)
Definition stored (s : snapshot) : list pyval := constraints s.

(** An accessor that hands out each stored [(r1, c1, r2, c2)] as the pair
    [((r1, c1), (r2, c2))]. *)
Definition regroup (k : pyval) : pyval :=
  match k with
  | PTuple [a; b; c; d] => PTuple [PTuple [a; b]; PTuple [c; d]]
  | _ => k
  end.

Definition regrouped (s : snapshot) : list pyval := regroup <$> constraints s.

Definition flat_constraint (r1 c1 r2 c2 : Z) : pyval :=
  PTuple [PInt r1; PInt c1; PInt r2; PInt c2].

Definition pair_constraint (r1 c1 r2 c2 : Z) : pyval :=
  PTuple [PTuple [PInt r1; PInt c1]; PTuple [PInt r2; PInt c2]].

(** The candidates of every cell of a board. *)
Definition domains (s : snapshot) : list (list (list Z)) :=
  map (map possibles) (cells s).

Definition values (s : snapshot) : list (list Z) :=
  map (map val) (cells s).

(** A single empty cell. *)
Definition blank1 : snapshot := board 1 [[0]] [].

(** Section 8, failure correctness: 3 by 3 with the clue 2 at (0,0) and
    at (0,2). *)
Definition twice3 : snapshot := board 3 [[2; 0; 2]; [0; 0; 0]; [0; 0; 0]] [].

(** A 3 by 3 board without clues. *)
Definition empty3 : snapshot := board 3 [[0; 0; 0]; [0; 0; 0]; [0; 0; 0]] [].

(** A solved 5 by 5 board with the stored constraint (0,0) < (0,1). *)
Definition full5 : snapshot :=
  board 5 [[1; 2; 3; 4; 5]; [2; 3; 4; 5; 1]; [3; 4; 5; 1; 2];
           [4; 5; 1; 2; 3]; [5; 1; 2; 3; 4]]
        [flat_constraint 0 0 0 1].

(** A 5 by 5 puzzle: clues 1 at (0,1) and 2 at (0,2), and the constraint
    (0,3) < (0,0). *)
Definition puzzle5 : snapshot :=
  board 5 [[0; 1; 2; 0; 0]; [0; 0; 0; 0; 0]; [0; 0; 0; 0; 0];
           [0; 0; 0; 0; 0]; [0; 0; 0; 0; 0]]
        [flat_constraint 0 3 0 0].

(** The same puzzle with its constraint stored as a pair. *)
Definition puzzle5_paired : snapshot :=
  board 5 [[0; 1; 2; 0; 0]; [0; 0; 0; 0; 0]; [0; 0; 0; 0; 0];
           [0; 0; 0; 0; 0]; [0; 0; 0; 0; 0]]
        [pair_constraint 0 3 0 0].

(** What [solve] does with [puzzle5] before its first nested call: the
    clone after propagation, and that clone with the candidate 3 written
    at (0,0), the first candidate that leaves the board consistent. *)
Definition propagated5 : res snapshot :=
  update_possibilities regrouped (Snapshot.clone puzzle5).

Definition trial5 : res snapshot :=
  let! new_snapshot := propagated5 in setCellVal new_snapshot 0 0 3.

(** The candidates of the cell at [p], when there is one. *)
Definition domain (s : snapshot) (p : pos) : option (list Z) :=
  possibles <$> at_ s p.

End Examples.

Export Examples.

(** * Properties of the embedding *)

(** ** Facts about the Python fragment *)

Lemma bind_Ok {A B : Type} (m : res A) (k : A → res B) (b : B) :
  Py.bind m k = Ok b ↔ ∃ a, m = Ok a ∧ k a = Ok b.
Proof.
  destruct m as [a|e]; simpl.
  - split; [eauto | intros (a' & [= <-] & Hk); exact Hk].
  - split; [discriminate | intros (a' & [=] & _)].
Qed.

Lemma norm_index_Ok (len : nat) (i : Z) (k : nat) :
  norm_index len i = Ok k ↔
  (k < len)%nat ∧ (i = Z.of_nat k ∨ i = Z.of_nat k - Z.of_nat len).
Proof.
  unfold norm_index.
  destruct (i <? 0) eqn:Hneg;
    [apply Z.ltb_lt in Hneg | apply Z.ltb_ge in Hneg].
  - destruct (i + Z.of_nat len <? 0) eqn:H1; simpl;
      [apply Z.ltb_lt in H1 | apply Z.ltb_ge in H1].
    + split; [discriminate | lia].
    + destruct (Z.of_nat len <=? i + Z.of_nat len) eqn:H2;
        [apply Z.leb_le in H2 | apply Z.leb_gt in H2].
      * split; [discriminate | lia].
      * split; [intros [= <-]; lia | intros [? [?|?]]; f_equal; lia].
  - destruct (i <? 0) eqn:H1; simpl;
      [apply Z.ltb_lt in H1; lia | clear H1].
    destruct (Z.of_nat len <=? i) eqn:H2;
      [apply Z.leb_le in H2 | apply Z.leb_gt in H2].
    + split; [discriminate | lia].
    + split; [intros [= <-]; lia | intros [? [?|?]]; f_equal; lia].
Qed.

Lemma norm_index_nat (len k : nat) :
  (k < len)%nat → norm_index len (Z.of_nat k) = Ok k.
Proof. intros Hk. apply norm_index_Ok. split; [done | by left]. Qed.

Lemma index_Ok {A : Type} (l : list A) (i : Z) (a : A) :
  index l i = Ok a ↔ ∃ k, norm_index (length l) i = Ok k ∧ l !! k = Some a.
Proof.
  unfold index. rewrite bind_Ok. split.
  - intros (k & Hk & Ha). exists k. split; [done|].
    destruct (l !! k); [by injection Ha as -> | discriminate].
  - intros (k & Hk & Ha). exists k. by rewrite Ha.
Qed.

Lemma index_elem_of {A : Type} (l : list A) (i : Z) (a : A) :
  index l i = Ok a → a ∈ l.
Proof.
  intros (k & _ & Ha)%index_Ok. by eapply list_elem_of_lookup_2.
Qed.

Lemma index_nat {A : Type} (l : list A) (k : nat) (a : A) :
  index l (Z.of_nat k) = Ok a ↔ l !! k = Some a.
Proof.
  rewrite index_Ok. split.
  - intros (k' & Hk & Ha). apply norm_index_Ok in Hk as [Hlt [?|?]].
    + by replace k with k' by lia.
    + lia.
  - intros Ha. exists k. split; [|done].
    apply norm_index_nat. by eapply lookup_lt_Some.
Qed.

Lemma index_raise {A : Type} (l : list A) (i : Z) (e : exn) :
  index l i = Raise e → e = IndexError.
Proof.
  unfold index, norm_index.
  destruct (_ || _); simpl; [by intros [= <-]|].
  destruct (l !! _); [discriminate | by intros [= <-]].
Qed.

Lemma mapM_Ok {A B : Type} (f : A → res B) (l : list A) (ys : list B) :
  mapM f l = Ok ys ↔ Forall2 (λ x y, f x = Ok y) l ys.
Proof.
  revert ys. induction l as [|x l IH]; intros ys; simpl.
  - split; [intros [= <-]; constructor | by intros ->%Forall2_nil_inv_l].
  - rewrite bind_Ok. split.
    + intros (y & Hy & (ys' & Hys & [= <-])%bind_Ok).
      constructor; [done | by apply IH].
    + intros (y & ys' & Hy & Hys & ->)%Forall2_cons_inv_l.
      exists y. split; [done|]. apply bind_Ok. exists ys'.
      split; [by apply IH | done].
Qed.

Lemma foldM_invariant {A S : Type} (P : S → Prop) (body : S → A → res S)
    (l : list A) (s s' : S) :
  (∀ s x s', P s → x ∈ l → body s x = Ok s' → P s') →
  P s → foldM body s l = Ok s' → P s'.
Proof.
  revert s. induction l as [|x l IH]; intros s Hbody Hs; simpl.
  - by intros [= <-].
  - intros (s1 & H1 & H2)%bind_Ok.
    apply (IH s1); [|by eapply Hbody; [| |exact H1]; [done|left]|done].
    intros ? ? ? ? ?. eapply Hbody; [done|by right].
Qed.

Lemma foldM_total {A S : Type} (P : S → Prop) (body : S → A → res S)
    (l : list A) (s : S) :
  (∀ s x, P s → x ∈ l → ∃ s', body s x = Ok s' ∧ P s') →
  P s → ∃ s', foldM body s l = Ok s' ∧ P s'.
Proof.
  revert s. induction l as [|x l IH]; intros s Hbody Hs; simpl.
  - eauto.
  - destruct (Hbody s x Hs) as (s1 & H1 & Hs1); [left|].
    rewrite H1. simpl. apply IH; [|done].
    intros ? ? ? ?. apply Hbody; [done | by right].
Qed.

Lemma elem_of_set_difference (x : Z) (a b : list Z) :
  x ∈ set_difference a b ↔ x ∈ a ∧ x ∉ b.
Proof.
  unfold set_difference.
  by rewrite list_elem_of_difference, elem_of_remove_dups.
Qed.

Lemma NoDup_set_difference (a b : list Z) : NoDup (set_difference a b).
Proof. apply NoDup_list_difference, NoDup_remove_dups. Qed.

Lemma elem_of_range (x a b : Z) : x ∈ range a b ↔ a ≤ x < b.
Proof. unfold range. rewrite elem_of_seqZ. lia. Qed.

Lemma elem_of_remove (x y : Z) (l : list Z) : x ∈ Py.remove y l → x ∈ l.
Proof.
  induction l as [|z l IH]; simpl; [done|].
  destruct (z =? y); [by right|].
  intros [->|?]%elem_of_cons; [left | right; auto].
Qed.

Lemma length_remove_dups_le (l : list Z) :
  (length (remove_dups l) ≤ length l)%nat.
Proof.
  induction l as [|x l IH]; simpl; [done|].
  destruct (decide_rel _ _ _); simpl; lia.
Qed.

Lemma has_duplicates_false (l : list Z) :
  has_duplicates l = false ↔ NoDup l.
Proof.
  unfold has_duplicates. rewrite negb_false_iff, Nat.eqb_eq.
  induction l as [|x l IH].
  - split; [constructor | done].
  - pose proof (length_remove_dups_le l) as Hle. simpl.
    destruct (decide_rel _ _ _) as [Hin|Hin]; simpl.
    + split; [lia | by intros [? _]%list.NoDup_cons].
    + split.
      * intros Hlen. apply list.NoDup_cons. split; [done|]. apply IH. lia.
      * intros [_ Hl%IH]%list.NoDup_cons. lia.
Qed.

(** ** Facts about the snapshot *)

Lemma copy_cell_id (c : cell) : copy_cell c = c.
Proof. by destruct c. Qed.

Lemma clone_id (s : snapshot) : Snapshot.clone s = s.
Proof.
  destruct s as [n g ks]. unfold Snapshot.clone. simpl. f_equal.
  induction g as [|r g IH]; simpl; [done|]. f_equal; [|done].
  induction r as [|c r IHr]; simpl; [done|]. by rewrite copy_cell_id, IHr.
Qed.

Lemma at_update_at (s : snapshot) (p q : pos) (f : cell → cell) :
  at_ (update_at s p f) q =
  if decide (p = q) then f <$> at_ s p else at_ s q.
Proof.
  destruct p as [i j], q as [i' j']. unfold at_, update_at. simpl.
  destruct (decide (i = i')) as [<-|Hi].
  - rewrite list_lookup_alter_eq.
    destruct (cells s !! i) as [r|]; simpl.
    + destruct (decide (j = j')) as [<-|Hj].
      * rewrite list_lookup_alter_eq. by rewrite decide_True.
      * rewrite list_lookup_alter_ne by done.
        rewrite decide_False by congruence. done.
    + by destruct (decide _).
  - rewrite list_lookup_alter_ne by done.
    rewrite decide_False by congruence. done.
Qed.

Lemma at_update_at_eq (s : snapshot) (p : pos) (f : cell → cell) :
  at_ (update_at s p f) p = f <$> at_ s p.
Proof. rewrite at_update_at. by rewrite decide_True. Qed.

Lemma at_update_at_ne (s : snapshot) (p q : pos) (f : cell → cell) :
  p ≠ q → at_ (update_at s p f) q = at_ s q.
Proof. intros. rewrite at_update_at. by rewrite decide_False. Qed.

Lemma update_at_update_at (s : snapshot) (p : pos) (f g : cell → cell) :
  update_at (update_at s p f) p g = update_at s p (g ∘ f).
Proof.
  unfold update_at. simpl. f_equal.
  rewrite list_alter_alter_eq. apply list_alter_ext; [|done].
  intros r _. simpl. by rewrite list_alter_alter_eq.
Qed.

Lemma update_at_id (s : snapshot) (p : pos) (f : cell → cell) :
  (∀ c, at_ s p = Some c → f c = c) → update_at s p f = s.
Proof.
  intros Hf. destruct s as [n g ks]. unfold update_at. simpl. f_equal.
  unfold at_ in Hf. simpl in Hf.
  apply list_eq. intros i. destruct (decide (p.1 = i)) as [<-|Hi].
  - rewrite list_lookup_alter_eq. destruct (g !! p.1) as [r|]; [|done].
    simpl. f_equal. apply list_eq. intros j.
    destruct (decide (p.2 = j)) as [<-|Hj].
    + rewrite list_lookup_alter_eq. simpl in Hf.
      destruct (r !! p.2) as [c|]; [|done]. simpl. f_equal. by apply Hf.
    + by rewrite list_lookup_alter_ne.
  - by rewrite list_lookup_alter_ne.
Qed.

Lemma skeleton_lookup (s : snapshot) (i j : nat) :
  skeleton s !! i ≫= (λ r, r !! j) = erase <$> at_ s (i, j).
Proof.
  unfold skeleton, at_. simpl. rewrite list_lookup_fmap.
  destruct (cells s !! i) as [r|]; simpl; [|done].
  by rewrite list_lookup_fmap.
Qed.

Lemma skeleton_update_at (s : snapshot) (p : pos) (f : cell → cell) :
  (∀ c, at_ s p = Some c → erase (f c) = erase c) →
  skeleton (update_at s p f) = skeleton s.
Proof.
  intros Hf. unfold skeleton, update_at, at_ in *. simpl.
  apply list_eq. intros i. rewrite !list_lookup_fmap.
  destruct (decide (p.1 = i)) as [<-|Hi].
  - rewrite list_lookup_alter_eq. destruct (cells s !! p.1) as [r|]; [|done].
    simpl. f_equal. apply list_eq. intros j. rewrite !list_lookup_fmap.
    destruct (decide (p.2 = j)) as [<-|Hj].
    + rewrite list_lookup_alter_eq. simpl in Hf.
      destruct (r !! p.2) as [c|]; [|done]. simpl. f_equal. by apply Hf.
    + by rewrite list_lookup_alter_ne.
  - by rewrite list_lookup_alter_ne.
Qed.

Lemma skeleton_at (s s' : snapshot) (p : pos) (c' : cell) :
  skeleton s' = skeleton s → at_ s' p = Some c' →
  ∃ c, at_ s p = Some c ∧ erase c = erase c'.
Proof.
  intros Hsk Hc'. destruct p as [i j].
  pose proof (skeleton_lookup s i j) as H.
  rewrite <- Hsk, skeleton_lookup, Hc' in H. simpl in H.
  destruct (at_ s (i, j)) as [c|]; [|done].
  exists c. split; [done|]. simpl in H. congruence.
Qed.

Lemma skeleton_length (s s' : snapshot) :
  skeleton s' = skeleton s → length (cells s') = length (cells s).
Proof.
  unfold skeleton. intros H.
  apply (f_equal length) in H. by rewrite !length_map in H.
Qed.

Lemma skeleton_width (s s' : snapshot) (i : nat) (r r' : list cell) :
  skeleton s' = skeleton s →
  cells s !! i = Some r → cells s' !! i = Some r' → length r' = length r.
Proof.
  unfold skeleton. intros H Hr Hr'.
  assert (map (map erase) (cells s') !! i = map (map erase) (cells s) !! i)
    as Hi by by rewrite H.
  rewrite !list_lookup_fmap, Hr, Hr' in Hi. simpl in Hi.
  injection Hi as Hi.
  apply (f_equal length) in Hi. by rewrite !length_map in Hi.
Qed.

Lemma grid_skeleton (n : nat) (s s' : snapshot) :
  rows s' = rows s → skeleton s' = skeleton s → grid n s → grid n s'.
Proof.
  intros Hrows Hsk [Hr Hh Hw Ha]. split.
  - congruence.
  - by rewrite (skeleton_length s s').
  - intros i r' Hr'.
    destruct (cells s !! i) as [r|] eqn:Hri.
    + rewrite (skeleton_width s s' i r r') by done. by eapply Hw.
    + apply lookup_ge_None in Hri. apply lookup_lt_Some in Hr'.
      rewrite (skeleton_length s s') in Hr' by done. lia.
  - intros i j c' Hc'.
    destruct (skeleton_at s s' (i, j) c' Hsk Hc') as (c & Hc & He).
    destruct (Ha i j c Hc) as [? ?].
    unfold erase in He. injection He as ? ? ?. split; congruence.
Qed.

Lemma grid_at (n : nat) (s : snapshot) (i j : nat) :
  grid n s → (i < n)%nat → (j < n)%nat → is_Some (at_ s (i, j)).
Proof.
  intros [_ Hh Hw _] Hi Hj. unfold at_. simpl.
  destruct (lookup_lt_is_Some_2 (cells s) i) as [r Hr]; [lia|].
  rewrite Hr. simpl. apply lookup_lt_is_Some_2.
  rewrite (Hw i r Hr). done.
Qed.

Lemma at_grid (n : nat) (s : snapshot) (i j : nat) (c : cell) :
  grid n s → at_ s (i, j) = Some c → (i < n)%nat ∧ (j < n)%nat.
Proof.
  intros [_ Hh Hw _]. unfold at_. simpl.
  destruct (cells s !! i) as [r|] eqn:Hr; simpl; [|done].
  intros Hc. apply lookup_lt_Some in Hc.
  rewrite (Hw i r Hr) in Hc. apply lookup_lt_Some in Hr. lia.
Qed.

(** ** What the snapshot hands out *)

Lemma addressed_lookup (s : snapshot) (i : nat) :
  addressed s !! i = (λ r, imap (λ j c, ((i, j), c)) r) <$> cells s !! i.
Proof. unfold addressed. by rewrite list_lookup_imap. Qed.

Lemma addressed_line_lookup (s : snapshot) (i j : nat) (line : list ref) :
  addressed s !! i = Some line →
  line !! j = (λ c, ((i, j), c)) <$> at_ s (i, j).
Proof.
  rewrite addressed_lookup. unfold at_. simpl.
  destruct (cells s !! i) as [r|]; simpl; [|done].
  intros [= <-]. by rewrite list_lookup_imap.
Qed.

Lemma addressed_line_length (s : snapshot) (i : nat) (line : list ref)
    (r : list cell) :
  addressed s !! i = Some line → cells s !! i = Some r →
  length line = length r.
Proof.
  rewrite addressed_lookup. intros H Hr. rewrite Hr in H. simpl in H.
  injection H as <-. by rewrite length_imap.
Qed.

Lemma elem_of_addressed (s : snapshot) (rc : ref) :
  rc ∈ mjoin (addressed s) ↔ at_ s rc.1 = Some rc.2.
Proof.
  rewrite list_elem_of_join. split.
  - intros (line & Hrc & Hline).
    apply list_elem_of_lookup_1 in Hline as [i Hi].
    apply list_elem_of_lookup_1 in Hrc as [j Hj].
    pose proof (addressed_line_lookup s i j line Hi) as Hij.
    assert (Some rc = (λ c, ((i, j), c)) <$> at_ s (i, j)) as Hrc
      by (etrans; [symmetry; exact Hj | exact Hij]).
    destruct (at_ s (i, j)) as [c|] eqn:Hc; [|done].
    simpl in Hrc. injection Hrc as ->. done.
  - destruct rc as [[i j] c]. simpl. intros Hc.
    destruct (addressed s !! i) as [line|] eqn:Hi.
    + exists line. split; [|by eapply list_elem_of_lookup_2].
      apply (list_elem_of_lookup_2 _ j).
      etrans; [exact (addressed_line_lookup s i j line Hi)|].
      by rewrite Hc.
    + rewrite addressed_lookup in Hi. unfold at_ in Hc. simpl in Hc.
      destruct (cells s !! i); done.
Qed.

Lemma index_addressed (s : snapshot) (r c : Z) (line : list ref) (rc : ref) :
  index (addressed s) r = Ok line → index line c = Ok rc →
  at_ s rc.1 = Some rc.2.
Proof.
  intros Hl Hc. apply elem_of_addressed. apply list_elem_of_join.
  exists line. split; by eapply index_elem_of.
Qed.

Lemma elem_of_unsolvedCells (s : snapshot) (rc : ref) :
  rc ∈ unsolvedCells s ↔ at_ s rc.1 = Some rc.2 ∧ val rc.2 = 0.
Proof.
  unfold unsolvedCells. rewrite list_elem_of_filter, elem_of_addressed.
  tauto.
Qed.

Lemma forallb_false {A : Type} (f : A → bool) (l : list A) :
  forallb f l = false ↔ ∃ x, x ∈ l ∧ f x = false.
Proof.
  induction l as [|y l IH]; simpl.
  - split; [discriminate | by intros (x & ?%elem_of_nil & _)].
  - rewrite andb_false_iff, IH. split.
    + intros [Hy|(x & Hx & Hfx)].
      * exists y. split; [left | done].
      * exists x. split; [by right | done].
    + intros (x & [->|Hx]%elem_of_cons & Hfx); [by left|].
      right. by exists x.
Qed.

Lemma isComplete_false (s : snapshot) :
  isComplete s = false ↔ ∃ p c, at_ s p = Some c ∧ val c = 0.
Proof.
  unfold isComplete. rewrite forallb_false. split.
  - intros (r & Hr & (c & Hc & Hv)%forallb_false).
    apply list_elem_of_lookup_1 in Hr as [i Hi].
    apply list_elem_of_lookup_1 in Hc as [j Hj].
    exists (i, j), c. unfold at_. simpl. rewrite Hi. simpl.
    split; [done|]. unfold getVal in Hv.
    apply negb_false_iff, Z.eqb_eq in Hv. done.
  - intros ([i j] & c & Hc & Hv). unfold at_ in Hc. simpl in Hc.
    destruct (cells s !! i) as [r|] eqn:Hi; [|done]. simpl in Hc.
    exists r. split; [by eapply list_elem_of_lookup_2|].
    apply forallb_false. exists c.
    split; [by eapply list_elem_of_lookup_2|].
    unfold getVal. rewrite Hv. done.
Qed.

Lemma isComplete_unsolved (s : snapshot) :
  isComplete s = false →
  ∃ next, index (unsolvedCells s) 0 = Ok next ∧
          at_ s next.1 = Some next.2 ∧ val next.2 = 0.
Proof.
  intros (p & c & Hc & Hv)%isComplete_false.
  assert ((p, c) ∈ unsolvedCells s) as Hin
    by by apply elem_of_unsolvedCells.
  destruct (unsolvedCells s) as [|next l] eqn:Hl.
  - by apply elem_of_nil in Hin.
  - exists next. split.
    + by apply (index_nat (next :: l) 0 next).
    + apply elem_of_unsolvedCells. rewrite Hl. left.
Qed.

Lemma isComplete_true_unsolved (s : snapshot) :
  isComplete s = true → unsolvedCells s = [].
Proof.
  intros Hs. destruct (unsolvedCells s) as [|rc l] eqn:Hl; [done|].
  assert (rc ∈ unsolvedCells s) as [Hc Hv]%elem_of_unsolvedCells
    by (rewrite Hl; left).
  assert (isComplete s = false) by (apply isComplete_false; eauto).
  congruence.
Qed.

(** ** Rows, columns and assignments on a grid *)

Lemma mapM_total {A B : Type} (f : A → res B) (l : list A) :
  (∀ x, x ∈ l → ∃ y, f x = Ok y) → ∃ ys, mapM f l = Ok ys.
Proof.
  induction l as [|x l IH]; intros Hf; simpl; [eauto|].
  destruct (Hf x) as [y Hy]; [left|]. rewrite Hy. simpl.
  destruct IH as [ys Hys]; [intros; apply Hf; by right|].
  rewrite Hys. simpl. eauto.
Qed.

Lemma range_lookup (n k : nat) :
  (k < n)%nat → range 0 (Z.of_nat n) !! k = Some (Z.of_nat k).
Proof.
  intros Hk. unfold range. rewrite lookup_seqZ_lt by lia. done.
Qed.

Lemma range_length (n : nat) : length (range 0 (Z.of_nat n)) = n.
Proof. unfold range. rewrite length_seqZ. lia. Qed.

Lemma elem_of_range_nat (n : nat) (x : Z) :
  x ∈ range 0 (Z.of_nat n) → ∃ k, x = Z.of_nat k ∧ (k < n)%nat.
Proof.
  intros Hx%elem_of_range. exists (Z.to_nat x). lia.
Qed.

Lemma mapM_range {B : Type} (f : Z → res B) (n : nat) (ys : list B) :
  mapM f (range 0 (Z.of_nat n)) = Ok ys →
  length ys = n ∧
  ∀ k y, ys !! k = Some y → f (Z.of_nat k) = Ok y.
Proof.
  intros H%mapM_Ok. split.
  - apply Forall2_length in H. by rewrite range_length in H.
  - intros k y Hy.
    destruct (Forall2_lookup_r _ _ _ _ _ H Hy) as (x & Hx & Hfx).
    apply lookup_lt_Some in Hy.
    apply Forall2_length in H. rewrite range_length in H.
    rewrite range_lookup in Hx by lia. by injection Hx as <-.
Qed.

Section Grid.

Context (n : nat) (s : snapshot) (Hgrid : grid n s).

Lemma cellsByRow_grid (i : nat) :
  (i < n)%nat →
  ∃ line, cellsByRow s (Z.of_nat i) = Ok line ∧ length line = n ∧
          ∀ j, line !! j = (λ c, ((i, j), c)) <$> at_ s (i, j).
Proof.
  intros Hi. destruct Hgrid as [_ Hh Hw _].
  destruct (lookup_lt_is_Some_2 (cells s) i) as [r Hr]; [lia|].
  destruct (addressed s !! i) as [line|] eqn:Hline;
    [|by rewrite addressed_lookup, Hr in Hline].
  exists line. split; [by apply index_nat|]. split.
  - rewrite (addressed_line_length s i line r) by done. by eapply Hw.
  - intros j. by apply addressed_line_lookup.
Qed.

Lemma cellsByCol_grid (j : nat) :
  (j < n)%nat →
  ∃ line, cellsByCol s (Z.of_nat j) = Ok line ∧ length line = n ∧
          ∀ i, line !! i = (λ c, ((i, j), c)) <$> at_ s (i, j).
Proof.
  intros Hj. pose proof Hgrid as [_ Hh Hw _].
  destruct (mapM_total (λ r : list ref, index r (Z.of_nat j)) (addressed s))
    as [line Hline].
  { intros l [i Hl]%list_elem_of_lookup_1.
    destruct (cells s !! i) as [r|] eqn:Hr;
      [|by rewrite addressed_lookup, Hr in Hl].
    destruct (lookup_lt_is_Some_2 l j) as [rc Hrc].
    { rewrite (addressed_line_length s i l r) by done.
      rewrite (Hw i r Hr). done. }
    exists rc. by apply index_nat. }
  exists line. split; [done|]. apply mapM_Ok in Hline.
  assert (length line = n) as Hlen.
  { apply Forall2_length in Hline. unfold addressed in Hline.
    rewrite length_imap in Hline. lia. }
  split; [done|]. intros i.
  destruct (line !! i) as [rc|] eqn:Hrc.
  - destruct (Forall2_lookup_r _ _ _ _ _ Hline Hrc) as (l & Hl & Hidx).
    apply index_nat in Hidx.
    by rewrite <- Hidx, (addressed_line_lookup s i j l Hl).
  - apply lookup_ge_None in Hrc.
    destruct (at_ s (i, j)) as [c|] eqn:Hc; [|done].
    apply (at_grid n) in Hc as [? ?]; [lia | done].
Qed.

Lemma line_vals_grid (row col : list ref) :
  length row = n → length col = n →
  ∃ vs, line_vals row col (rows s) = Ok vs ∧
        (∀ k, vs.1 !! k = (λ rc : ref, val rc.2) <$> row !! k) ∧
        (∀ k, vs.2 !! k = (λ rc : ref, val rc.2) <$> col !! k).
Proof.
  intros Hrow Hcol. destruct Hgrid as [Hrows _ _ _]. rewrite Hrows.
  unfold line_vals.
  destruct (mapM_total
    (λ j, let! a := index row j in let! b := index col j in
          Ok (getVal a.2, getVal b.2)) (range 0 (Z.of_nat n)))
    as [ys Hys].
  { intros x (k & -> & Hk)%elem_of_range_nat.
    destruct (lookup_lt_is_Some_2 row k) as [a Ha]; [lia|].
    destruct (lookup_lt_is_Some_2 col k) as [b Hb]; [lia|].
    apply index_nat in Ha, Hb. rewrite Ha, Hb. simpl. eauto. }
  rewrite Hys. simpl. eexists. split; [done|]. simpl.
  apply mapM_range in Hys as [Hlen Hys].
  split; intros k; rewrite list_lookup_fmap.
  - destruct (ys !! k) as [y|] eqn:Hy.
    + apply Hys in Hy.
      apply bind_Ok in Hy as (a & Ha & (b & Hb & [= <-])%bind_Ok).
      apply index_nat in Ha. by rewrite Ha.
    + apply lookup_ge_None in Hy. simpl.
      by rewrite (lookup_ge_None_2 row) by lia.
  - destruct (ys !! k) as [y|] eqn:Hy.
    + apply Hys in Hy.
      apply bind_Ok in Hy as (a & Ha & (b & Hb & [= <-])%bind_Ok).
      apply index_nat in Hb. by rewrite Hb.
    + apply lookup_ge_None in Hy. simpl.
      by rewrite (lookup_ge_None_2 col) by lia.
Qed.

(** The values along row [i] and column [j], as the two loops of
    lines 64-68 and 159-163 collect them. *)
Lemma lines_grid (i j : nat) :
  (i < n)%nat → (j < n)%nat →
  ∃ row col vs,
    cellsByRow s (Z.of_nat i) = Ok row ∧
    cellsByCol s (Z.of_nat j) = Ok col ∧
    line_vals row col (rows s) = Ok vs ∧
    (∀ k, vs.1 !! k = val <$> at_ s (i, k)) ∧
    (∀ k, vs.2 !! k = val <$> at_ s (k, j)).
Proof.
  intros Hi Hj.
  destruct (cellsByRow_grid i Hi) as (row & Hrow & Hlr & Hr).
  destruct (cellsByCol_grid j Hj) as (col & Hcol & Hlc & Hc).
  destruct (line_vals_grid row col Hlr Hlc) as (vs & Hvs & H1 & H2).
  exists row, col, vs. repeat split; try done.
  - intros k. rewrite H1, Hr. by destruct (at_ s (i, k)).
  - intros k. rewrite H2, Hc. by destruct (at_ s (k, j)).
Qed.

Lemma setCellVal_grid (i j : nat) (v : Z) :
  (i < n)%nat → (j < n)%nat →
  setCellVal s (Z.of_nat i) (Z.of_nat j) v = Ok (assign s (i, j) v).
Proof.
  intros Hi Hj. unfold setCellVal.
  destruct (cellsByRow_grid i Hi) as (line & Hline & Hlen & Hl).
  unfold cellsByRow in Hline. rewrite Hline. simpl.
  destruct (grid_at n s i j Hgrid Hi Hj) as [c Hc].
  assert (line !! j = Some ((i, j), c)) as Hrc by by rewrite Hl, Hc.
  apply index_nat in Hrc. rewrite Hrc. done.
Qed.

End Grid.

Lemma grid_assign (n : nat) (s : snapshot) (p : pos) (v : Z) :
  grid n s → grid n (assign s p v).
Proof.
  intros Hg. unfold assign. destruct Hg as [Hr Hh Hw Ha]. split.
  - done.
  - simpl. by rewrite length_alter.
  - intros i r. simpl. rewrite list_lookup_alter.
    destruct (decide (p.1 = i)) as [<-|].
    + destruct (cells s !! p.1) as [r0|] eqn:Hr0; [|done].
      simpl. intros [= <-]. rewrite length_alter. by eapply Hw.
    + apply Hw.
  - intros i j c. rewrite at_update_at.
    destruct (decide (p = (i, j))) as [->|]; [|apply Ha].
    destruct (at_ s (i, j)) as [c0|] eqn:Hc0; [|done].
    simpl. intros [= <-]. simpl. by apply Ha.
Qed.

(** ** The consistency check *)

Lemma NoDup_nonzero (l : list Z) :
  NoDup (nonzero l) ↔
  ∀ k k' v, l !! k = Some v → l !! k' = Some v → v ≠ 0 → k = k'.
Proof.
  unfold nonzero. induction l as [|x l IH].
  - split; [intros _ k k' v Hk; by rewrite lookup_nil in Hk | constructor].
  - rewrite filter_cons. destruct (decide (x ≠ 0)) as [Hx|Hx].
    + rewrite list.NoDup_cons, IH, list_elem_of_filter. split.
      * intros [Hnin Hl] [|k] [|k'] v; simpl; intros Hk Hk' Hv.
        -- done.
        -- injection Hk as ->. destruct Hnin. split; [done|].
           by eapply list_elem_of_lookup_2.
        -- injection Hk' as ->. destruct Hnin. split; [done|].
           by eapply list_elem_of_lookup_2.
        -- f_equal. by eapply Hl.
      * intros H. split.
        -- intros [_ [k Hk]%list_elem_of_lookup_1].
           by specialize (H 0%nat (S k) x eq_refl Hk Hx).
        -- intros k k' v Hk Hk' Hv.
           by specialize (H (S k) (S k') v Hk Hk' Hv) as [= ->].
    + rewrite IH. split.
      * intros Hl [|k] [|k'] v; simpl; intros Hk Hk' Hv.
        -- done.
        -- injection Hk as ->. by destruct Hx.
        -- injection Hk' as ->. by destruct Hx.
        -- f_equal. by eapply Hl.
      * intros H k k' v Hk Hk' Hv.
        by specialize (H (S k) (S k') v Hk Hk' Hv) as [= ->].
Qed.

Lemma lines_distinct_line_ok (s : snapshot) :
  lines_distinct s ↔ ∀ i, line_ok s i.
Proof.
  unfold lines_distinct, line_ok. split.
  - intros [Hr Hc] i. split; [apply Hr|].
    intros j j' c c'. apply Hc.
  - intros H. split.
    + intros i. apply H.
    + intros i i' j. apply (H j).
Qed.

Lemma distinct_lookup (vs : list Z) (f : nat → option cell) :
  (∀ k, vs !! k = val <$> f k) →
  has_duplicates (nonzero vs) = false ↔
  ∀ j j' c c', f j = Some c → f j' = Some c' →
     val c ≠ 0 → val c = val c' → j = j'.
Proof.
  intros Hvs. rewrite has_duplicates_false, NoDup_nonzero. split.
  - intros H j j' c c' Hc Hc' Hv Heq.
    apply (H j j' (val c)); [| |done].
    + by rewrite Hvs, Hc.
    + by rewrite Hvs, Hc', Heq.
  - intros H k k' v Hk Hk' Hv. rewrite Hvs in Hk, Hk'.
    destruct (f k) as [c|] eqn:Hc; [|done].
    destruct (f k') as [c'|] eqn:Hc'; [|done].
    simpl in Hk, Hk'. injection Hk as <-. injection Hk' as Hk'.
    by apply (H k k' c c').
Qed.

Section Check.

Context (n : nat) (s : snapshot) (Hgrid : grid n s).

Lemma check_lines_grid (indices : list Z) :
  (∀ x, x ∈ indices → ∃ i, x = Z.of_nat i ∧ (i < n)%nat) →
  ∃ b, check_lines s indices = Ok b ∧
       (b = true ↔ ∀ i, Z.of_nat i ∈ indices → line_ok s i).
Proof.
  induction indices as [|x indices IH]; intros Hidx.
  - exists true. split; [done|]. split; [|done].
    intros _ i Hi. by apply elem_of_nil in Hi.
  - destruct (Hidx x) as (i & -> & Hi); [left|].
    destruct IH as (b & Hb & IH); [intros; apply Hidx; by right|].
    destruct (lines_grid n s Hgrid i i Hi Hi)
      as (row & col & vs & Hrow & Hcol & Hvs & H1 & H2).
    simpl. rewrite Hrow, Hcol. simpl. rewrite Hvs. simpl.
    pose proof (distinct_lookup vs.1 (λ k, at_ s (i, k)) H1) as Hd1.
    pose proof (distinct_lookup vs.2 (λ k, at_ s (k, i)) H2) as Hd2.
    destruct (has_duplicates (nonzero vs.1)) eqn:E1; simpl.
    { exists false. split; [done|]. split; [done|].
      intros H. destruct (H i) as [Hr _]; [left|].
      destruct Hd1 as [_ Hd1]. by specialize (Hd1 Hr). }
    destruct (has_duplicates (nonzero vs.2)) eqn:E2; simpl.
    { exists false. split; [done|]. split; [done|].
      intros H. destruct (H i) as [_ Hc]; [left|].
      destruct Hd2 as [_ Hd2]. by specialize (Hd2 Hc). }
    exists b. split; [done|]. rewrite IH. split.
    + intros H i' [Heq|Hin]%elem_of_cons; [|by apply H].
      apply Nat2Z.inj in Heq as ->.
      split; [by apply Hd1 | by apply Hd2].
    + intros H i' Hin. apply H. by right.
Qed.

Lemma check_lines_range :
  ∃ b, check_lines s (range 0 (rows s)) = Ok b ∧
       (b = true ↔ lines_distinct s).
Proof.
  destruct (check_lines_grid (range 0 (rows s))) as (b & Hb & Hiff).
  { rewrite (grid_rows n s Hgrid). apply elem_of_range_nat. }
  exists b. split; [done|]. rewrite Hiff, lines_distinct_line_ok.
  split.
  - intros H i. destruct (decide (i < n)%nat) as [Hi|Hi].
    + apply H. rewrite (grid_rows n s Hgrid). apply elem_of_range. lia.
    + split; intros j j' c c' Hc.
      * apply (at_grid n) in Hc as [? ?]; [lia | done].
      * apply (at_grid n) in Hc as [? ?]; [lia | done].
  - intros H i _. apply H.
Qed.

Lemma flat_endpoints (k : pyval) (lesser greater : pos) :
  flat n k lesser greater →
  ∃ lo hi, at_ s lesser = Some lo ∧ at_ s greater = Some hi ∧
           flat_endpoint s k 0 1 = Ok (val lo) ∧
           flat_endpoint s k 2 3 = Ok (val hi).
Proof.
  destruct lesser as [a b], greater as [c d]. simpl.
  intros (-> & Ha & Hb & Hc & Hd). simpl in *.
  destruct (grid_at n s a b Hgrid Ha Hb) as [lo Hlo].
  destruct (grid_at n s c d Hgrid Hc Hd) as [hi Hhi].
  exists lo, hi. split; [done|]. split; [done|].
  unfold at_ in Hlo, Hhi. simpl in Hlo, Hhi.
  destruct (cells s !! a) as [ra|] eqn:Hra; [|done].
  destruct (cells s !! c) as [rc|] eqn:Hrc; [|done].
  simpl in Hlo, Hhi.
  apply index_nat in Hra, Hrc, Hlo, Hhi.
  unfold flat_endpoint.
  change (getitem _ 0) with (Ok (PInt (Z.of_nat a))).
  change (getitem _ 1) with (Ok (PInt (Z.of_nat b))).
  change (getitem _ 2) with (Ok (PInt (Z.of_nat c))).
  change (getitem _ 3) with (Ok (PInt (Z.of_nat d))).
  simpl. rewrite Hra, Hrc. simpl. rewrite Hlo, Hhi. done.
Qed.

Lemma flat_inj (k : pyval) (l g l' g' : pos) :
  flat n k l g → flat n k l' g' → l = l' ∧ g = g'.
Proof.
  destruct l as [a b], g as [c d], l' as [a' b'], g' as [c' d'].
  intros [-> _] [[= ? ? ? ?] _]. simpl in *.
  split; f_equal; by apply Nat2Z.inj.
Qed.

Lemma check_constraints_flat (ks : list pyval) :
  (∀ p c, at_ s p = Some c → 0 ≤ val c) →
  Forall (λ k, ∃ l g, flat n k l g) ks →
  ∃ b, check_constraints s ks = Ok b ∧
       (b = true ↔
        ∀ k l g lo hi, k ∈ ks → flat n k l g →
          at_ s l = Some lo → at_ s g = Some hi →
          val lo ≠ 0 → val hi ≠ 0 → val lo < val hi).
Proof.
  intros Hpos. induction 1 as [|k ks (l & g & Hk) Hks IH].
  - exists true. split; [done|]. split; [|done].
    intros _ k l g lo hi Hin. by apply elem_of_nil in Hin.
  - destruct IH as (b & Hb & IH).
    destruct (flat_endpoints k l g Hk) as (lo & hi & Hlo & Hhi & H1 & H2).
    simpl. rewrite H1, H2. simpl.
    pose proof (Hpos _ _ Hlo). pose proof (Hpos _ _ Hhi).
    destruct ((0 <? val lo) && (0 <? val hi) && (val hi <=? val lo))
      eqn:E.
    + exists false. split; [done|]. split; [done|]. intros H'.
      apply andb_true_iff in E as [[E1 E2]%andb_true_iff E3].
      apply Z.ltb_lt in E1, E2. apply Z.leb_le in E3.
      assert (val lo < val hi)
        by (apply (H' k l g lo hi); [left|done|done|done|lia|lia]).
      lia.
    + exists b. split; [done|]. rewrite IH. split.
      * intros H' k' l' g' lo' hi' [->|Hin]%elem_of_cons; [|by apply H'].
        intros Hk' Hlo' Hhi' Hvlo Hvhi.
        destruct (flat_inj k l g l' g' Hk Hk') as [<- <-].
        assert (lo' = lo) as -> by congruence.
        assert (hi' = hi) as -> by congruence.
        apply andb_false_iff in E as [[E|E]%andb_false_iff|E].
        -- apply Z.ltb_ge in E. lia.
        -- apply Z.ltb_ge in E. lia.
        -- apply Z.leb_gt in E. lia.
      * intros H' k' l' g' lo' hi' Hin. apply H'. by right.
Qed.

(** What [checkConsistency] decides on a grid with non-negative values
    and flat constraints. *)
Lemma checkConsistency_grid :
  (∀ p c, at_ s p = Some c → 0 ≤ val c) →
  Forall (λ k, ∃ l g, flat n k l g) (constraints s) →
  ∃ b, checkConsistency s = Ok b ∧
       (b = true ↔ lines_distinct s ∧ constraints_hold n s).
Proof.
  intros Hpos Hks. unfold checkConsistency.
  destruct check_lines_range as (b1 & Hb1 & H1).
  destruct (check_constraints_flat (constraints s) Hpos Hks)
    as (b2 & Hb2 & H2).
  rewrite Hb1. simpl. destruct b1.
  - exists b2. split; [done|]. rewrite H2. unfold constraints_hold.
    split; [intros H; split; [by apply H1 | exact H] | by intros [_ H]].
  - exists false. split; [done|]. split; [done|].
    intros [H _]. by apply H1 in H.
Qed.

End Check.

(** ** One pass of propagation *)

Lemma dom_ok_set_difference (M : Z) (a b : list Z) :
  dom_ok M a → dom_ok M (set_difference a b).
Proof. intros Ha x [Hx _]%elem_of_set_difference. by apply Ha. Qed.

Lemma dom_ok_remove (M y : Z) (l : list Z) :
  dom_ok M l → dom_ok M (Py.remove y l).
Proof. intros Hl x Hx%elem_of_remove. by apply Hl. Qed.

Lemma in_range_update_at (M : Z) (s : snapshot) (p : pos) (c' : cell) :
  in_range M s → 0 ≤ val c' ≤ M → dom_ok M (possibles c') →
  in_range M (update_at s p (λ _, c')).
Proof.
  intros Hs Hv Hd q c. rewrite at_update_at.
  destruct (decide (p = q)) as [->|]; [|apply Hs].
  destruct (at_ s q); [|done]. simpl. by intros [= <-].
Qed.

Lemma eliminate_Ok (s : snapshot) (c c' : cell) :
  eliminate s c = Ok c' →
  erase c' = erase c ∧ ∀ x, x ∈ possibles c' → x ∈ possibles c.
Proof.
  unfold eliminate.
  intros (row & _ & (col & _ & (vs & _ & [= <-])%bind_Ok)%bind_Ok)%bind_Ok.
  split; [done|]. simpl.
  intros x [[Hx _]%elem_of_set_difference _]%elem_of_set_difference.
  done.
Qed.

Lemma index_by_elem_of {A : Type} (l : list A) (v : pyval) (a : A) :
  index_by l v = Ok a → a ∈ l.
Proof. destruct v; [apply index_elem_of | done]. Qed.

Lemma endpoint_at (s : snapshot) (k : pyval) (e : Z) (c : cell) :
  endpoint s k e = Ok c → ∃ p, at_ s p = Some c.
Proof.
  unfold endpoint.
  intros (ke & _ & (ke0 & _ & (line & Hline & (ke1 & _ & Hc)%bind_Ok)
    %bind_Ok)%bind_Ok)%bind_Ok.
  apply index_by_elem_of in Hline, Hc.
  apply list_elem_of_lookup_1 in Hline as [i Hi].
  apply list_elem_of_lookup_1 in Hc as [j Hj].
  exists (i, j). unfold at_. simpl. by rewrite Hi.
Qed.

Lemma tighten_Ok (M : Z) (s : snapshot) (c c' : cell) (k : pyval) :
  in_range M s → rows s ≤ M →
  tighten s c k = Ok c' →
  erase c' = erase c ∧ (dom_ok M (possibles c) → dom_ok M (possibles c')).
Proof.
  intros Hs Hrows. unfold tighten.
  intros (smaller_here & _ & (st & Hst & H2)%bind_Ok)%bind_Ok.
  assert (erase st.1 = erase c ∧
          (dom_ok M (possibles c) →
           dom_ok M (possibles st.1) ∧ dom_ok M st.2)) as [He1 Hd1].
  { destruct smaller_here.
    - apply bind_Ok in Hst as (bigger & Hb & [= <-]).
      apply endpoint_at in Hb as [p Hp]. destruct (Hs p bigger Hp) as [Hv _].
      split; [done|]. simpl. intros Hc.
      assert (dom_ok M
        (if negb (getVal bigger =? 0) then range 1 (getVal bigger)
         else if mem (rows s) (getPossibilities c)
              then Py.remove (rows s) (getPossibilities c)
              else getPossibilities c)) as Hd; [|done].
      destruct (negb _).
      + intros x Hx%elem_of_range. unfold getVal in Hx. lia.
      + destruct (mem _ _); [by apply dom_ok_remove | done].
    - injection Hst as <-. done. }
  clear Hst. apply bind_Ok in H2 as (greater_here & _ & H2).
  destruct greater_here.
  - apply bind_Ok in H2 as (smaller & Hsm & [= <-]).
    apply endpoint_at in Hsm as [p Hp]. destruct (Hs p smaller Hp) as [Hv _].
    split; [done|]. simpl. intros [_ Hc]%Hd1.
    destruct (negb _).
    + intros x Hx%elem_of_range. unfold getVal in Hx. lia.
    + destruct (mem _ _); [by apply dom_ok_remove | done].
  - injection H2 as <-. split; [done|]. by intros [? _]%Hd1.
Qed.

Lemma foldM_tighten_Ok (M : Z) (s : snapshot) (ks : list pyval)
    (c c' : cell) :
  in_range M s → rows s ≤ M →
  foldM (tighten s) c ks = Ok c' →
  erase c' = erase c ∧ (dom_ok M (possibles c) → dom_ok M (possibles c')).
Proof.
  intros Hs Hrows. revert c. induction ks as [|k ks IH]; intros c; simpl.
  - by intros [= <-].
  - intros (c1 & H1 & H2)%bind_Ok.
    destruct (tighten_Ok M s c c1 k Hs Hrows H1) as [He1 Hd1].
    destruct (IH c1 H2) as [He2 Hd2].
    split; [congruence | auto].
Qed.

Lemma cross_out_subset (p : pos) (line : list ref) (np : list Z) (x : Z) :
  x ∈ cross_out p np line → x ∈ np.
Proof.
  revert np. induction line as [|rc line IH]; intros np; simpl; [done|].
  destruct (bool_decide _); simpl.
  - destruct (_ =? _)%nat.
    + by intros [? _]%elem_of_set_difference.
    + by intros [? _]%IH%elem_of_set_difference.
  - destruct (_ =? _)%nat; [done | apply IH].
Qed.

Lemma hidden_single_Ok (p : pos) (c c' : cell) (line : res (list ref)) :
  hidden_single p c line = Ok c' →
  erase c' = erase c ∧ ∀ x, x ∈ possibles c' → x ∈ possibles c.
Proof.
  unfold hidden_single. destruct (_ <? _)%nat; [|by intros [= <-]].
  intros (l & _ & H)%bind_Ok. destruct (_ =? _)%nat.
  - injection H as <-. split; [done|]. simpl.
    intros x. apply cross_out_subset.
  - by injection H as <-.
Qed.

Section WithAccessor.

Variable getConstraints : snapshot → list pyval.

Lemma update_cell_Ok (M : Z) (s : snapshot) (p : pos) (c c' : cell) :
  in_range M s → rows s ≤ M →
  update_cell getConstraints s p c = Ok c' →
  erase c' = erase c ∧ (dom_ok M (possibles c) → dom_ok M (possibles c')).
Proof.
  intros Hs Hrows. unfold update_cell.
  intros (c1 & H1 & (c2 & H2 & (c3 & H3 & H4)%bind_Ok)%bind_Ok)%bind_Ok.
  apply eliminate_Ok in H1 as [He1 Hd1].
  apply (foldM_tighten_Ok M) in H2 as [He2 Hd2]; [|done|done].
  apply hidden_single_Ok in H3 as [He3 Hd3].
  apply hidden_single_Ok in H4 as [He4 Hd4].
  split; [congruence|]. intros Hc x Hx%Hd4%Hd3. revert x Hx.
  apply Hd2. intros x Hx%Hd1. by apply Hc.
Qed.

Lemma update_cell_erase (s : snapshot) (p : pos) (c c' : cell) :
  update_cell getConstraints s p c = Ok c' → erase c' = erase c.
Proof.
  unfold update_cell.
  intros (c1 & H1 & (c2 & H2 & (c3 & H3 & H4)%bind_Ok)%bind_Ok)%bind_Ok.
  apply eliminate_Ok in H1 as [He1 _].
  apply hidden_single_Ok in H3 as [He3 _].
  apply hidden_single_Ok in H4 as [He4 _].
  assert (erase c2 = erase c1) as He2; [|congruence].
  clear -H2. revert c1 H2.
  induction (getConstraints s) as [|k ks IH]; intros c1; simpl.
  - by intros [= <-].
  - intros (c1' & H1 & H2)%bind_Ok. rewrite (IH c1' H2).
    clear -H1. unfold tighten in H1.
    apply bind_Ok in H1 as (b1 & _ & (st & Hst & H2)%bind_Ok).
    assert (erase st.1 = erase c1) as He.
    { destruct b1; [|by injection Hst as <-].
      by apply bind_Ok in Hst as (? & _ & [= <-]). }
    apply bind_Ok in H2 as (b2 & _ & H2).
    destruct b2; [|by injection H2 as <-].
    by apply bind_Ok in H2 as (? & _ & [= <-]).
Qed.

(** Propagation writes candidates only: the size, the constraints and
    every cell's position and value are those of the board it was given. *)
Lemma update_possibilities_skeleton (s s' : snapshot) :
  update_possibilities getConstraints s = Ok s' →
  rows s' = rows s ∧ constraints s' = constraints s ∧
  skeleton s' = skeleton s.
Proof.
  unfold update_possibilities.
  apply (foldM_invariant
    (λ s', rows s' = rows s ∧ constraints s' = constraints s ∧
           skeleton s' = skeleton s)); [|done].
  intros s1 p s2 (Hr & Hk & Hsk) _.
  destruct (at_ s1 p) as [c|] eqn:Hc; [|by intros [= <-]].
  intros (c' & Hc' & [= <-])%bind_Ok. simpl.
  split; [done|]. split; [done|]. rewrite <- Hsk.
  apply skeleton_update_at. intros c0 Hc0.
  assert (c0 = c) as -> by congruence.
  by eapply update_cell_erase.
Qed.

Lemma update_possibilities_in_range (M : Z) (s s' : snapshot) :
  in_range M s → rows s ≤ M →
  update_possibilities getConstraints s = Ok s' → in_range M s'.
Proof.
  intros Hs Hrows H.
  enough (rows s' = rows s ∧ in_range M s') as [_ ?] by done.
  revert H. unfold update_possibilities.
  apply (foldM_invariant (λ s', rows s' = rows s ∧ in_range M s'));
    [|done].
  intros s1 p s2 [Hr Hs1] _.
  destruct (at_ s1 p) as [c|] eqn:Hc; [|by intros [= <-]].
  intros (c' & Hc' & [= <-])%bind_Ok. split; [done|].
  apply (update_cell_Ok M) in Hc' as [He Hd]; [|done|lia].
  destruct (Hs1 p c Hc) as [Hv Hdc].
  apply in_range_update_at; [done| |by apply Hd].
  unfold erase in He. injection He as _ _ ->. done.
Qed.

End WithAccessor.

(** ** Propagation does not raise on a grid with paired constraints *)

Section Total.

Context (n : nat) (s : snapshot) (Hgrid : grid n s).

Lemma getitem_pair_0 (a b : pyval) : getitem (PTuple [a; b]) 0 = Ok a.
Proof. reflexivity. Qed.

Lemma getitem_pair_1 (a b : pyval) : getitem (PTuple [a; b]) 1 = Ok b.
Proof. reflexivity. Qed.

Lemma is_endpoint_paired (k : pyval) (l g : pos) (e : Z) (c : cell) :
  paired n k l g → e = 0 ∨ e = 1 → ∃ b, is_endpoint k e c = Ok b.
Proof.
  intros [-> _] [-> | ->]; unfold is_endpoint.
  - rewrite getitem_pair_0. simpl. destruct (_ =? _); simpl; eauto.
  - rewrite getitem_pair_1. simpl. destruct (_ =? _); simpl; eauto.
Qed.

Lemma endpoint_paired (k : pyval) (l g : pos) :
  paired n k l g →
  ∃ lo hi, at_ s l = Some lo ∧ at_ s g = Some hi ∧
           endpoint s k 0 = Ok lo ∧ endpoint s k 1 = Ok hi.
Proof.
  destruct l as [a b], g as [c d]. simpl.
  intros (-> & Ha & Hb & Hc & Hd). simpl in *.
  destruct (grid_at n s a b Hgrid Ha Hb) as [lo Hlo].
  destruct (grid_at n s c d Hgrid Hc Hd) as [hi Hhi].
  exists lo, hi. split; [done|]. split; [done|].
  unfold at_ in Hlo, Hhi. simpl in Hlo, Hhi.
  destruct (cells s !! a) as [ra|] eqn:Hra; [|done].
  destruct (cells s !! c) as [rc|] eqn:Hrc; [|done].
  simpl in Hlo, Hhi.
  apply index_nat in Hra, Hrc, Hlo, Hhi.
  unfold endpoint. rewrite getitem_pair_0, getitem_pair_1.
  simpl. rewrite Hra, Hrc. simpl. rewrite Hlo, Hhi. done.
Qed.

Lemma tighten_total (k : pyval) (c : cell) :
  (∃ l g, paired n k l g) → ∃ c', tighten s c k = Ok c'.
Proof.
  intros (l & g & Hk). unfold tighten.
  destruct (endpoint_paired k l g Hk) as (lo & hi & _ & _ & Hlo & Hhi).
  destruct (is_endpoint_paired k l g 0 c Hk) as [b1 Hb1]; [by left|].
  rewrite Hb1. simpl.
  destruct b1; simpl.
  - rewrite Hhi. simpl.
    destruct (is_endpoint_paired k l g 1
      (setPossibilities c
         (if negb (getVal hi =? 0) then range 1 (getVal hi)
          else if mem (rows s) (getPossibilities c)
               then Py.remove (rows s) (getPossibilities c)
               else getPossibilities c)) Hk) as [b2 Hb2]; [by right|].
    rewrite Hb2. simpl. destruct b2; [|eauto].
    rewrite Hlo. simpl. eauto.
  - destruct (is_endpoint_paired k l g 1 c Hk) as [b2 Hb2]; [by right|].
    rewrite Hb2. simpl. destruct b2; [|eauto].
    rewrite Hlo. simpl. eauto.
Qed.

Lemma hidden_single_total (p : pos) (c : cell) (line : list ref) :
  ∃ c', hidden_single p c (Ok line) = Ok c'.
Proof.
  unfold hidden_single. destruct (_ <? _)%nat; [|eauto]. simpl.
  destruct (_ =? _)%nat; eauto.
Qed.

Section WithAccessor.

Variable getConstraints : snapshot → list pyval.

Lemma update_cell_total (p : pos) (c : cell) :
  at_ s p = Some c →
  Forall (λ k, ∃ l g, paired n k l g) (getConstraints s) →
  ∃ c', update_cell getConstraints s p c = Ok c'.
Proof.
  intros Hc Hks. destruct p as [i j].
  destruct (at_grid n s i j c Hgrid Hc) as [Hi Hj].
  destruct (grid_addr n s Hgrid i j c Hc) as [Hrow Hcol].
  destruct (lines_grid n s Hgrid i j Hi Hj)
    as (row & col & vs & Hr & Hcl & Hvs & _ & _).
  unfold update_cell.
  assert (∃ c1, eliminate s c = Ok c1) as [c1 Hc1].
  { unfold eliminate. rewrite Hrow, Hcol, Hr, Hcl. simpl.
    rewrite Hvs. simpl. eauto. }
  rewrite Hc1. simpl.
  destruct (foldM_total (λ _, True) (tighten s) (getConstraints s) c1)
    as (c2 & Hc2 & _); [|done|].
  { intros c' k _ Hk. rewrite list.Forall_forall in Hks.
    destruct (tighten_total k c' (Hks k Hk)) as [c'' Hc'']. eauto. }
  rewrite Hc2. simpl.
  apply eliminate_Ok in Hc1 as [He1 _].
  assert (erase c2 = erase c1) as He2.
  { clear -Hc2. revert c1 Hc2.
    induction (getConstraints s) as [|k ks IH]; intros c1; simpl.
    - by intros [= <-].
    - intros (c1' & H1 & H2)%bind_Ok. rewrite (IH c1' H2).
      clear -H1. unfold tighten in H1.
      apply bind_Ok in H1 as (b1 & _ & (st & Hst & H2)%bind_Ok).
      assert (erase st.1 = erase c1) as He.
      { destruct b1; [|by injection Hst as <-].
        by apply bind_Ok in Hst as (? & _ & [= <-]). }
      apply bind_Ok in H2 as (b2 & _ & H2).
      destruct b2; [|by injection H2 as <-].
      by apply bind_Ok in H2 as (? & _ & [= <-]). }
  assert (Cell.row c2 = Z.of_nat i ∧ Cell.col c2 = Z.of_nat j) as [Hr2 Hc2'].
  { unfold erase in He1, He2. split; congruence. }
  rewrite Hr2, Hr.
  destruct (hidden_single_total (i, j) c2 row) as [c3 Hc3].
  rewrite Hc3. simpl.
  apply hidden_single_Ok in Hc3 as [He3 _].
  assert (Cell.col c3 = Z.of_nat j) as ->
    by (unfold erase in He3; congruence).
  rewrite Hcl. apply hidden_single_total.
Qed.

End WithAccessor.

End Total.

Section WithAccessor.

Variable getConstraints : snapshot → list pyval.

Lemma update_possibilities_total (n : nat) (s : snapshot) :
  grid n s →
  (∀ s', constraints s' = constraints s →
     Forall (λ k, ∃ l g, paired n k l g) (getConstraints s')) →
  ∃ s', update_possibilities getConstraints s = Ok s'.
Proof.
  intros Hgrid Hacc. unfold update_possibilities.
  destruct (foldM_total
    (λ s1, grid n s1 ∧ constraints s1 = constraints s)
    (λ s1 p, match at_ s1 p with
             | Some c => let! c' := update_cell getConstraints s1 p c in
                         Ok (update_at s1 p (λ _, c'))
             | None => Ok s1
             end) (unsolvedCells s).*1 s) as (s' & Hs' & _); [|done|eauto].
  intros s1 p [Hg1 Hk1] _.
  destruct (at_ s1 p) as [c|] eqn:Hc; [|eauto].
  destruct (update_cell_total n s1 Hg1 getConstraints p c Hc (Hacc s1 Hk1))
    as [c' Hc'].
  rewrite Hc'. simpl. eexists. split; [done|]. split; [|done].
  apply (grid_skeleton n s1); [done| |done].
  apply skeleton_update_at. intros c0 Hc0.
  assert (c0 = c) as -> by congruence.
  by eapply update_cell_erase.
Qed.

End WithAccessor.

(** ** The search *)

Lemma assign_assign (s : snapshot) (p : pos) (v w : Z) :
  assign (assign s p v) p w = assign s p w.
Proof.
  unfold assign. by rewrite update_at_update_at.
Qed.

Lemma at_assign (s : snapshot) (p q : pos) (v : Z) :
  at_ (assign s p v) q =
  if decide (p = q) then (λ c, setVal c v) <$> at_ s p else at_ s q.
Proof. apply at_update_at. Qed.

Lemma try_candidates_first_success (n : nat) (ns : snapshot) (i j : nat)
    (recurse : snapshot → option (res bool)) (candidates : list Z)
    (st : snapshot) :
  (i < n)%nat → (j < n)%nat → grid n st →
  (∀ w, assign st (i, j) w = assign ns (i, j) w) →
  try_candidates recurse st (Z.of_nat i) (Z.of_nat j) candidates =
  first_success recurse (λ v, assign ns (i, j) v) candidates.
Proof.
  intros Hi Hj. revert st.
  induction candidates as [|v candidates IH]; intros st Hst Hsame; [done|].
  simpl. rewrite (setCellVal_grid n st Hst i j v Hi Hj), Hsame.
  assert (try_candidates recurse (assign ns (i, j) v) (Z.of_nat i)
            (Z.of_nat j) candidates =
          first_success recurse (λ v, assign ns (i, j) v) candidates)
    as Hrest.
  { apply IH.
    - rewrite <- Hsame. by apply grid_assign.
    - intros w. apply assign_assign. }
  destruct (checkConsistency _) as [[|]|]; [|done|done].
  destruct (recurse _) as [[[|]|]|]; done.
Qed.

Section WithAccessor.

Variable getConstraints : snapshot → list pyval.

(** One call on a board that is not complete: the candidates are those
    the first unsolved cell has on the board passed in, and candidate
    [v] is tried on the propagated clone with [v] written into that
    cell. *)
Lemma solve_step (n : nat) (s : snapshot) :
  grid n s → isComplete s = false →
  ∃ next, index (unsolvedCells s) 0 = Ok next ∧
          at_ s next.1 = Some next.2 ∧ val next.2 = 0 ∧
          ∀ fuel, solve getConstraints (S fuel) s =
            match update_possibilities getConstraints (Snapshot.clone s) with
            | Raise e => Some (Raise e)
            | Ok ns =>
                first_success (solve getConstraints fuel)
                  (λ v, assign ns next.1 v) (possibles next.2)
            end.
Proof.
  intros Hgrid Hinc.
  destruct (isComplete_unsolved s Hinc) as (next & Hnext & Hat & Hval).
  exists next. split; [done|]. split; [done|]. split; [done|].
  intros fuel. simpl. rewrite Hinc. simpl. rewrite Hnext.
  destruct (update_possibilities _ _) as [ns|e] eqn:Hns; [|done].
  rewrite clone_id in Hns.
  destruct (update_possibilities_skeleton getConstraints s ns Hns)
    as (Hrows & _ & Hsk).
  destruct next as [[i j] c]. simpl in *.
  destruct (at_grid n s i j c Hgrid Hat) as [Hi Hj].
  destruct (grid_addr n s Hgrid i j c Hat) as [-> ->].
  apply (try_candidates_first_success n); try done.
  by apply (grid_skeleton n s).
Qed.

End WithAccessor.

(** *** Counting the unsolved cells *)

Lemma count_alter {A : Type} (P : A → Prop) `{∀ x, Decision (P x)}
    (f : A → A) (l : list A) (i : nat) (x : A) :
  l !! i = Some x → P x → ¬ P (f x) →
  (length (filter P (alter f i l)) + 1 = length (filter P l))%nat.
Proof.
  revert i. induction l as [|y l IH]; intros [|i]; try done.
  - intros [= ->] Hx Hfx.
    change (alter f 0%nat (x :: l)) with (f x :: l).
    rewrite !filter_cons.
    destruct (decide (P (f x))); [done|].
    destruct (decide (P x)); [|done]. simpl. lia.
  - intros Hi Hx Hfx.
    change (alter f (S i) (y :: l)) with (y :: alter f i l).
    rewrite !filter_cons. specialize (IH i Hi Hx Hfx).
    destruct (decide (P y)); rewrite ?length_cons; lia.
Qed.

Lemma count_join_alter {A : Type} (P : A → Prop) `{∀ x, Decision (P x)}
    (h : list A → list A) (g : list (list A)) (i : nat) (r : list A) :
  g !! i = Some r →
  (length (filter P (mjoin (alter h i g))) + length (filter P r)
   = length (filter P (mjoin g)) + length (filter P (h r)))%nat.
Proof.
  revert i. induction g as [|r0 g IH]; intros [|i]; try done.
  - intros [= ->].
    change (alter h 0%nat (r :: g)) with (h r :: g).
    change (mjoin (h r :: g)) with (h r ++ mjoin g).
    change (mjoin (r :: g)) with (r ++ mjoin g).
    rewrite !list.filter_app, !length_app. lia.
  - intros Hi.
    change (alter h (S i) (r0 :: g)) with (r0 :: alter h i g).
    change (mjoin (r0 :: alter h i g)) with (r0 ++ mjoin (alter h i g)).
    change (mjoin (r0 :: g)) with (r0 ++ mjoin g).
    rewrite !list.filter_app, !length_app. specialize (IH i Hi). lia.
Qed.

Lemma skeleton_assign (s : snapshot) (p : pos) (v : Z) :
  skeleton (assign s p v) =
  alter (alter (λ e, (e.1, v)) p.2) p.1 (skeleton s).
Proof.
  unfold skeleton, assign, update_at. simpl.
  apply list_eq. intros i. rewrite list_lookup_fmap, !list_lookup_alter.
  destruct (decide (p.1 = i)) as [<-|].
  - rewrite list_lookup_fmap. destruct (cells s !! p.1) as [r|]; [|done].
    simpl. f_equal. apply list_eq. intros j.
    rewrite list_lookup_fmap, !list_lookup_alter.
    destruct (decide (p.2 = j)) as [<-|].
    + rewrite list_lookup_fmap. by destruct (r !! p.2).
    + by rewrite list_lookup_fmap.
  - by rewrite list_lookup_fmap.
Qed.

Lemma unsolved_count_assign (s : snapshot) (p : pos) (c : cell) (v : Z) :
  at_ s p = Some c → val c = 0 → v ≠ 0 →
  (unsolved_count (assign s p v) + 1 = unsolved_count s)%nat.
Proof.
  intros Hc Hv Hnz. unfold unsolved_count. rewrite skeleton_assign.
  destruct p as [i j]. simpl.
  pose proof (skeleton_lookup s i j) as Hsk. rewrite Hc in Hsk.
  destruct (skeleton s !! i) as [r|] eqn:Hr; [|done]. simpl in Hsk.
  pose proof (count_join_alter (λ e : Z * Z * Z, e.2 = 0)
    (alter (λ e, (e.1, v)) j) (skeleton s) i r Hr) as H1.
  pose proof (count_alter (λ e : Z * Z * Z, e.2 = 0)
    (λ e, (e.1, v)) r j (erase c) Hsk Hv Hnz) as H2.
  lia.
Qed.

Lemma unsolved_count_skeleton (s s' : snapshot) :
  skeleton s' = skeleton s → unsolved_count s' = unsolved_count s.
Proof. unfold unsolved_count. by intros ->. Qed.

Lemma length_join_grid {A : Type} (n : nat) (g : list (list A)) :
  Forall (λ r, length r = n) g → length (mjoin g) = (length g * n)%nat.
Proof.
  induction 1 as [|r g Hr _ IH]; simpl; [done|].
  rewrite length_app, IH, Hr. lia.
Qed.

Lemma unsolved_count_grid (n : nat) (s : snapshot) :
  grid n s → (unsolved_count s ≤ n * n)%nat.
Proof.
  intros [_ Hh Hw _]. unfold unsolved_count.
  etrans; [apply length_filter|].
  rewrite (length_join_grid n).
  - unfold skeleton. rewrite length_map, Hh. done.
  - unfold skeleton. apply list.Forall_forall.
    intros r' (r & -> & Hr)%list_elem_of_fmap.
    apply list_elem_of_lookup_1 in Hr as [i Hi].
    rewrite length_map. by eapply Hw.
Qed.

(** *** The loop over the candidates *)

Lemma first_success_true (recurse : snapshot → option (res bool))
    (board_of : Z → snapshot) (candidates : list Z) :
  first_success recurse board_of candidates = Some (Ok true) →
  ∃ v, v ∈ candidates ∧ checkConsistency (board_of v) = Ok true ∧
       recurse (board_of v) = Some (Ok true).
Proof.
  induction candidates as [|v candidates IH]; simpl; [done|].
  destruct (checkConsistency (board_of v)) as [[|]|] eqn:Hc; [| |done].
  - destruct (recurse (board_of v)) as [[[|]|]|] eqn:Hr; try done.
    + intros _. exists v. split; [left | done].
    + intros (w & Hw & H)%IH. exists w. split; [by right | done].
  - intros (w & Hw & H)%IH. exists w. split; [by right | done].
Qed.

Lemma first_success_returns (recurse : snapshot → option (res bool))
    (board_of : Z → snapshot) (candidates : list Z) (raises : bool) :
  (∀ v, v ∈ candidates →
     (raises = false → ∃ b, checkConsistency (board_of v) = Ok b) ∧
     (checkConsistency (board_of v) = Ok true →
      ∃ r, recurse (board_of v) = Some r ∧
           (raises = false → ∃ b, r = Ok b))) →
  ∃ r, first_success recurse board_of candidates = Some r ∧
       (raises = false → ∃ b, r = Ok b).
Proof.
  induction candidates as [|v candidates IH]; intros H; simpl.
  - exists (Ok false). split; [done | eauto].
  - destruct (H v) as [Hc Hr]; [left|].
    destruct IH as (r' & Hr' & Hb'); [intros; apply H; by right|].
    destruct (checkConsistency (board_of v)) as [[|]|e] eqn:Hcv.
    + destruct (Hr eq_refl) as (r & -> & Hb).
      destruct r as [[|]|e].
      * exists (Ok true). split; [done | eauto].
      * eauto.
      * exists (Raise e). split; [done | exact Hb].
    + eauto.
    + exists (Raise e). split; [done|].
      intros Hraises. by destruct (Hc Hraises).
Qed.

Lemma first_success_false (recurse : snapshot → option (res bool))
    (board_of : Z → snapshot) (candidates : list Z) :
  (∀ v, v ∈ candidates → checkConsistency (board_of v) = Ok false) →
  first_success recurse board_of candidates = Some (Ok false).
Proof.
  induction candidates as [|v candidates IH]; intros H; simpl; [done|].
  rewrite (H v) by left. apply IH. intros w Hw. apply H. by right.
Qed.

(** *** The boards the search descends to *)

Lemma in_range_assign (M : Z) (s : snapshot) (p : pos) (v : Z) :
  in_range M s → 0 ≤ v ≤ M → in_range M (assign s p v).
Proof.
  intros Hs Hv q c. rewrite at_assign.
  destruct (decide (p = q)) as [->|]; [|apply Hs].
  destruct (at_ s q) as [c0|] eqn:Hc0; [|done]. simpl.
  intros [= <-]. simpl. by destruct (Hs q c0 Hc0).
Qed.

Lemma extends_refl (s : snapshot) : extends s s.
Proof. intros p c Hc. exists c. done. Qed.

Lemma extends_trans (s1 s2 s3 : snapshot) :
  extends s1 s2 → extends s2 s3 → extends s1 s3.
Proof.
  intros H12 H23 p c Hc.
  destruct (H12 p c Hc) as (c2 & Hc2 & Hr2 & Hl2 & Hv2).
  destruct (H23 p c2 Hc2) as (c3 & Hc3 & Hr3 & Hl3 & Hv3).
  exists c3. split; [done|]. split; [congruence|]. split; [congruence|].
  intros Hv. rewrite Hv3; [by apply Hv2|]. rewrite Hv2; done.
Qed.

Section WithAccessor.

Variable getConstraints : snapshot → list pyval.

(** What holds of the board a candidate is tried on. *)
Lemma trial_board (n : nat) (s ns : snapshot) (p : pos) (c : cell)
    (v : Z) :
  grid n s → at_ s p = Some c → val c = 0 →
  update_possibilities getConstraints s = Ok ns →
  grid n (assign ns p v) ∧
  constraints (assign ns p v) = constraints s ∧
  extends s (assign ns p v) ∧
  (v ≠ 0 →
   (unsolved_count (assign ns p v) + 1 = unsolved_count s)%nat) ∧
  (∀ M, in_range M s → rows s ≤ M → 0 ≤ v ≤ M →
        in_range M (assign ns p v)).
Proof.
  intros Hgrid Hc Hv Hns.
  destruct (update_possibilities_skeleton getConstraints s ns Hns)
    as (Hrows & Hks & Hsk).
  assert (grid n ns) as Hgns by by apply (grid_skeleton n s).
  assert (∀ q d, at_ s q = Some d →
            ∃ d', at_ ns q = Some d' ∧ erase d' = erase d) as Hat.
  { intros [i j] d Hd.
    pose proof (skeleton_lookup ns i j) as H.
    rewrite Hsk, skeleton_lookup, Hd in H.
    destruct (at_ ns (i, j)) as [d'|]; [|done].
    exists d'. split; [done|]. simpl in H. congruence. }
  split; [by apply grid_assign|]. split; [done|]. split; [|split].
  - intros q d Hd. destruct (Hat q d Hd) as (d' & Hd' & He).
    unfold erase in He. injection He as Hr Hl Hvd.
    rewrite at_assign. destruct (decide (p = q)) as [->|].
    + rewrite Hd'. simpl. eexists. split; [done|]. simpl.
      split; [done|]. split; [done|]. intros Hnz.
      assert (d = c) as -> by congruence. done.
    + exists d'. done.
  - intros Hnz. rewrite <- (unsolved_count_skeleton s ns Hsk).
    destruct (Hat p c Hc) as (c' & Hc' & He).
    apply (unsolved_count_assign ns p c'); [done| |done].
    unfold erase in He. congruence.
  - intros M Hs HM Hv'. apply in_range_assign; [|done].
    eapply update_possibilities_in_range; eauto.
Qed.

(** *** Success comes from a complete and consistent board *)

Lemma solve_sound (n : nat) (fuel : nat) (s : snapshot) :
  grid n s → solve getConstraints fuel s = Some (Ok true) →
  ∃ s', extends s s' ∧ grid n s' ∧ constraints s' = constraints s ∧
        isComplete s' = true ∧ checkConsistency s' = Ok true.
Proof.
  revert s. induction fuel as [|fuel IH]; intros s Hgrid; [done|].
  destruct (isComplete s) eqn:Hcomp.
  - simpl. rewrite Hcomp. simpl.
    destruct (checkConsistency s) as [[|]|] eqn:Hcons; try done.
    intros _. exists s. split; [apply extends_refl | done].
  - destruct (solve_step getConstraints n s Hgrid Hcomp)
      as (next & _ & Hat & Hval & Hstep).
    rewrite Hstep, clone_id.
    destruct (update_possibilities _ s) as [ns|] eqn:Hns; [|done].
    intros (v & Hv & Hcons & Hrec)%first_success_true.
    destruct (trial_board n s ns next.1 next.2 v Hgrid Hat Hval Hns)
      as (Hg & Hks & Hext & _).
    destruct (IH _ Hg Hrec) as (s' & Hext' & Hg' & Hks' & Hc' & Hcons').
    exists s'. split; [by eapply extends_trans|].
    split; [done|]. split; [congruence | done].
Qed.

(** *** Every call returns *)

Lemma solve_returns (n : nat) (M : Z) (raises : bool) (fuel : nat)
    (s : snapshot) :
  grid n s → in_range M s → rows s ≤ M →
  (raises = false →
     Forall (λ k, ∃ l g, flat n k l g) (constraints s) ∧
     ∀ s', constraints s' = constraints s →
       Forall (λ k, ∃ l g, paired n k l g) (getConstraints s')) →
  (unsolved_count s < fuel)%nat →
  ∃ r, solve getConstraints fuel s = Some r ∧
       (raises = false → ∃ b, r = Ok b).
Proof.
  revert s. induction fuel as [|fuel IH];
    intros s Hgrid Hrange HM Hks Hcount; [lia|].
  assert (raises = false → ∃ b, checkConsistency s = Ok b) as Hcons.
  { intros [Hflat _]%Hks.
    destruct (checkConsistency_grid n s Hgrid) as (b & Hb & _);
      [|done|eauto].
    intros p c Hc. destruct (Hrange p c Hc) as [? _]. lia. }
  destruct (isComplete s) eqn:Hcomp.
  - simpl. rewrite Hcomp. simpl.
    destruct (checkConsistency s) as [[|]|e] eqn:Hc.
    + exists (Ok true). split; [done | eauto].
    + exists (Ok false). split; [done | eauto].
    + exists (Raise e). split; [done|]. intros Hr.
      by destruct (Hcons Hr).
  - destruct (solve_step getConstraints n s Hgrid Hcomp)
      as (next & _ & Hat & Hval & Hstep).
    rewrite Hstep, clone_id.
    destruct (update_possibilities _ s) as [ns|e] eqn:Hns.
    + apply first_success_returns. intros v Hv.
      destruct (Hrange _ _ Hat) as [_ Hdom].
      specialize (Hdom v Hv).
      destruct (trial_board n s ns next.1 next.2 v Hgrid Hat Hval Hns)
        as (Hg & Hk & _ & Hcnt & Hin).
      specialize (Hcnt ltac:(lia)).
      specialize (Hin M Hrange HM ltac:(lia)).
      assert (rows (assign ns next.1 v) ≤ M) as HM'.
      { destruct Hg as [-> _ _ _]. destruct Hgrid as [Hr _ _ _]. lia. }
      split.
      * intros [Hflat _]%Hks.
        destruct (checkConsistency_grid n _ Hg) as (b & Hb & _);
          [| |eauto].
        -- intros p c Hc. destruct (Hin p c Hc) as [? _]. lia.
        -- by rewrite Hk.
      * intros _. apply IH; try done; [|lia].
        rewrite Hk. exact Hks.
    + exists (Raise e). split; [done|]. intros [_ Hacc]%Hks.
      destruct (update_possibilities_total getConstraints n s Hgrid Hacc)
        as [ns' Hns'].
      congruence.
Qed.

(** *** A board that is already inconsistent *)

Lemma consistent_extends (n : nat) (s s' : snapshot) :
  extends s s' → constraints s' = constraints s →
  lines_distinct s' ∧ constraints_hold n s' →
  lines_distinct s ∧ constraints_hold n s.
Proof.
  intros Hext Hks [[Hrow Hcol] Hhold].
  assert (∀ p c, at_ s p = Some c → val c ≠ 0 →
            ∃ c', at_ s' p = Some c' ∧ val c' = val c) as Hat.
  { intros p c Hc Hv. destruct (Hext p c Hc) as (c' & Hc' & _ & _ & Hv').
    exists c'. split; [done | by apply Hv']. }
  split; [split|].
  - intros i j j' c c' Hc Hc' Hv Heq.
    destruct (Hat _ _ Hc Hv) as (d & Hd & Hvd).
    destruct (Hat _ _ Hc' ltac:(congruence)) as (d' & Hd' & Hvd').
    apply (Hrow i j j' d d'); congruence.
  - intros i i' j c c' Hc Hc' Hv Heq.
    destruct (Hat _ _ Hc Hv) as (d & Hd & Hvd).
    destruct (Hat _ _ Hc' ltac:(congruence)) as (d' & Hd' & Hvd').
    apply (Hcol i i' j d d'); congruence.
  - intros k l g lo hi Hk Hflat Hlo Hhi Hvlo Hvhi.
    destruct (Hat _ _ Hlo Hvlo) as (d & Hd & Hvd).
    destruct (Hat _ _ Hhi Hvhi) as (d' & Hd' & Hvd').
    rewrite <- Hvd, <- Hvd'.
    apply (Hhold k l g d d'); try done; try congruence.
Qed.

Lemma solve_inconsistent (n : nat) (M : Z) (s : snapshot) :
  grid n s → in_range M s → rows s ≤ M →
  Forall (λ k, ∃ l g, flat n k l g) (constraints s) →
  (∀ s', constraints s' = constraints s →
     Forall (λ k, ∃ l g, paired n k l g) (getConstraints s')) →
  checkConsistency s = Ok false →
  solve getConstraints 1 s = Some (Ok false).
Proof.
  intros Hgrid Hrange HM Hflat Hacc Hcons.
  destruct (isComplete s) eqn:Hcomp.
  - simpl. by rewrite Hcomp, Hcons.
  - destruct (solve_step getConstraints n s Hgrid Hcomp)
      as (next & _ & Hat & Hval & Hstep).
    rewrite Hstep, clone_id.
    destruct (update_possibilities_total getConstraints n s Hgrid Hacc)
      as [ns Hns].
    rewrite Hns. apply first_success_false. intros v Hv.
    destruct (Hrange _ _ Hat) as [_ Hdom]. specialize (Hdom v Hv).
    destruct (trial_board n s ns next.1 next.2 v Hgrid Hat Hval Hns)
      as (Hg & Hk & Hext & _ & Hin).
    specialize (Hin M Hrange HM ltac:(lia)).
    destruct (checkConsistency_grid n _ Hg) as (b & Hb & Hiff).
    { intros p c Hc. destruct (Hin p c Hc) as [? _]. lia. }
    { by rewrite Hk. }
    rewrite Hb. destruct b; [|done].
    destruct Hiff as [Hiff _]. specialize (Hiff eq_refl).
    apply (consistent_extends n s) in Hiff; [|done|done].
    destruct (checkConsistency_grid n s Hgrid) as (b & Hb' & Hiff').
    { intros p c Hc. destruct (Hrange p c Hc) as [? _]. lia. }
    { done. }
    destruct Hiff' as [_ Hiff']. specialize (Hiff' Hiff). congruence.
Qed.

End WithAccessor.

(** ** The deciders are sound *)

Lemma forallb_elem_of {A : Type} (f : A → bool) (l : list A) (x : A) :
  forallb f l = true → x ∈ l → f x = true.
Proof.
  intros H Hx. apply list_elem_of_In in Hx.
  rewrite forallb_forall in H. by apply H.
Qed.

Lemma gridb_grid (n : nat) (s : snapshot) : gridb n s = true → grid n s.
Proof.
  unfold gridb.
  intros [[[Hr Hh]%andb_true_iff Hw]%andb_true_iff Ha]%andb_true_iff.
  apply Z.eqb_eq in Hr. apply Nat.eqb_eq in Hh. split; [done|done| |].
  - intros i r Hi. apply Nat.eqb_eq.
    apply (forallb_elem_of _ _ r Hw). by eapply list_elem_of_lookup_2.
  - intros i j c Hc.
    assert (((i, j), c) ∈ mjoin (addressed s)) as Hin
      by by apply elem_of_addressed.
    apply list_elem_of_join in Hin as (line & Hrc & Hline).
    pose proof (forallb_elem_of _ _ line Ha Hline) as Hl.
    pose proof (forallb_elem_of _ _ _ Hl Hrc) as H. simpl in H.
    apply andb_true_iff in H as [H1 H2].
    apply Z.eqb_eq in H1, H2. done.
Qed.

Lemma in_rangeb_in_range (M : Z) (s : snapshot) :
  in_rangeb M s = true → in_range M s.
Proof.
  unfold in_rangeb. intros H [i j] c Hc. unfold at_ in Hc. simpl in Hc.
  destruct (cells s !! i) as [r|] eqn:Hr; [|done]. simpl in Hc.
  pose proof (forallb_elem_of _ _ r H (list_elem_of_lookup_2 _ _ _ Hr))
    as Hrow.
  pose proof (forallb_elem_of _ _ c Hrow (list_elem_of_lookup_2 _ _ _ Hc))
    as Hcell.
  apply andb_true_iff in Hcell as [[H1 H2]%andb_true_iff H3].
  apply Z.leb_le in H1, H2. split; [done|]. intros x Hx.
  pose proof (forallb_elem_of _ _ x H3 Hx) as Hx'.
  apply andb_true_iff in Hx' as [H4 H5]. apply Z.leb_le in H4, H5. done.
Qed.

Lemma inb_nat (n : nat) (z : Z) :
  inb n z = true → ∃ k, z = Z.of_nat k ∧ (k < n)%nat.
Proof.
  unfold inb. intros [H1 H2]%andb_true_iff.
  apply Z.leb_le in H1. apply Z.ltb_lt in H2.
  exists (Z.to_nat z). lia.
Qed.

Lemma flatb_flat (n : nat) (k : pyval) :
  flatb n k = true → ∃ l g, flat n k l g.
Proof.
  unfold flatb.
  destruct k as [|[|[a|] [|[b|] [|[c|] [|[d|] [|]]]]]]; try done.
  intros [[[(a' & -> & Ha)%inb_nat (b' & -> & Hb)%inb_nat]%andb_true_iff
    (c' & -> & Hc)%inb_nat]%andb_true_iff (d' & -> & Hd)%inb_nat]
    %andb_true_iff.
  exists (a', b'), (c', d'). by repeat split.
Qed.

Lemma pairedb_paired (n : nat) (k : pyval) :
  pairedb n k = true → ∃ l g, paired n k l g.
Proof.
  unfold pairedb.
  destruct k as [|[|[|[|[a|] [|[b|] [|]]]] [|[|[|[c|] [|[d|] [|]]]] [|]]]];
    try done.
  intros [[[(a' & -> & Ha)%inb_nat (b' & -> & Hb)%inb_nat]%andb_true_iff
    (c' & -> & Hc)%inb_nat]%andb_true_iff (d' & -> & Hd)%inb_nat]
    %andb_true_iff.
  exists (a', b'), (c', d'). by repeat split.
Qed.

Lemma forallb_Forall {A : Type} (f : A → bool) (P : A → Prop) (l : list A) :
  (∀ x, f x = true → P x) → forallb f l = true → Forall P l.
Proof.
  intros HfP H. apply list.Forall_forall. intros x Hx.
  apply HfP. by eapply forallb_elem_of.
Qed.

(** ** The hidden single *)

Lemma remove_dups_NoDup (l : list Z) : NoDup l → remove_dups l = l.
Proof.
  induction 1 as [|x l Hx _ IH]; simpl; [done|].
  destruct (decide_rel elem_of x l) as [?|_]; [done|]. by rewrite IH.
Qed.

Lemma list_difference_nil (k : list Z) : list_difference [] k = [].
Proof. done. Qed.

Lemma list_difference_app (l a b : list Z) :
  list_difference l (a ++ b) = list_difference (list_difference l a) b.
Proof.
  induction l as [|x l IH]; simpl; [done|].
  destruct (decide_rel elem_of x (a ++ b)) as [Hab|Hab];
    destruct (decide_rel elem_of x a) as [Ha|Ha]; simpl.
  - done.
  - destruct (decide_rel elem_of x b) as [Hb|Hb]; [done|].
    apply elem_of_app in Hab as [?|?]; done.
  - destruct Hab. apply elem_of_app. by left.
  - destruct (decide_rel elem_of x b) as [Hb|Hb]; [|by rewrite IH].
    destruct Hab. apply elem_of_app. by right.
Qed.

Lemma set_difference_NoDup (a b : list Z) :
  NoDup a → set_difference a b = list_difference a b.
Proof. intros Ha. unfold set_difference. by rewrite remove_dups_NoDup. Qed.

Lemma cross_out_others (p : pos) (line : list ref) (np : list Z) :
  NoDup np → cross_out p np line = list_difference np (others p line).
Proof.
  revert np. induction line as [|rc line IH]; intros np Hnp.
  - unfold others. simpl. clear Hnp.
    induction np as [|x np IHnp]; simpl; [done|].
    destruct (decide_rel elem_of x []) as [Hx|_]; [by inversion Hx|].
    by rewrite <- IHnp.
  - unfold others. cbn [cross_out]. rewrite filter_cons.
    destruct (decide (rc.1 ≠ p)) as [Hrc|Hrc].
    + rewrite bool_decide_eq_true_2 by done.
      rewrite fmap_cons.
      change (mjoin (possibles rc.2 :: ?l)) with (possibles rc.2 ++ mjoin l).
      rewrite list_difference_app. unfold getPossibilities.
      rewrite set_difference_NoDup by done.
      destruct (_ =? _)%nat eqn:Hlen.
      * apply Nat.eqb_eq, nil_length_inv in Hlen. by rewrite Hlen.
      * apply IH. by apply NoDup_list_difference.
    + rewrite bool_decide_eq_false_2 by done.
      destruct (_ =? _)%nat eqn:Hlen; [|by apply IH].
      apply Nat.eqb_eq, nil_length_inv in Hlen. by rewrite Hlen.
Qed.

Lemma elem_of_others (p : pos) (line : list ref) (x : Z) :
  x ∈ others p line ↔ ∃ rc, rc ∈ line ∧ rc.1 ≠ p ∧ x ∈ possibles rc.2.
Proof.
  unfold others. rewrite list_elem_of_join. split.
  - intros (l & Hx & (rc & -> & [Hp Hrc]%list_elem_of_filter)
      %list_elem_of_fmap).
    by exists rc.
  - intros (rc & Hrc & Hp & Hx). exists (possibles rc.2). split; [done|].
    apply list_elem_of_fmap. exists rc. split; [done|].
    by apply list_elem_of_filter.
Qed.

(** ** Two ways to subscript a constraint *)

Lemma readers_clash (s : snapshot) (k : pyval) (c : cell) (b : bool) :
  is_endpoint k 0 c = Ok b → flat_endpoint s k 0 1 = Raise TypeError.
Proof.
  unfold is_endpoint, flat_endpoint.
  intros (ke & Hke & (ke0 & Hke0 & _)%bind_Ok)%bind_Ok.
  rewrite Hke. simpl. by destruct ke.
Qed.

Lemma tighten_reads (s : snapshot) (k : pyval) (c c' : cell) :
  tighten s c k = Ok c' → ∃ b, is_endpoint k 0 c = Ok b.
Proof.
  unfold tighten. intros (b & Hb & _)%bind_Ok. eauto.
Qed.

(** ** The regrouping accessor *)

Lemma regroup_paired (n : nat) (k : pyval) (l g : pos) :
  flat n k l g → paired n (regroup k) l g.
Proof. intros [-> H]. split; [done | exact H]. Qed.

Lemma regrouped_paired (n : nat) (s : snapshot) :
  Forall (λ k, ∃ l g, flat n k l g) (constraints s) →
  ∀ s', constraints s' = constraints s →
    Forall (λ k, ∃ l g, paired n k l g) (regrouped s').
Proof.
  intros Hflat s' Hs'. unfold regrouped. rewrite Hs'.
  apply Forall_fmap. apply list.Forall_forall. intros k Hk.
  rewrite list.Forall_forall in Hflat.
  destruct (Hflat k Hk) as (l & g & Hflat'). exists l, g.
  by apply regroup_paired.
Qed.

Lemma stored_no_constraints (n : nat) (s : snapshot) :
  constraints s = [] →
  ∀ s', constraints s' = constraints s →
    Forall (λ k, ∃ l g, paired n k l g) (stored s').
Proof. intros Hs s' Hs'. unfold stored. rewrite Hs', Hs. constructor. Qed.

(** ** Assignment through [setCellVal] *)

Lemma setCellVal_Ok (s s' : snapshot) (r c v : Z) :
  setCellVal s r c v = Ok s' → ∃ p, s' = assign s p v.
Proof.
  unfold setCellVal.
  intros (line & _ & (rc & _ & [= <-])%bind_Ok)%bind_Ok.
  by exists rc.1.
Qed.

Lemma values_nonneg (M : Z) (s : snapshot) :
  in_range M s → ∀ p c, at_ s p = Some c → 0 ≤ val c.
Proof. intros Hs p c Hc. destruct (Hs p c Hc) as [? _]. lia. Qed.

Lemma check_lines_distinct (n : nat) (s : snapshot) :
  grid n s → check_lines s (range 0 (rows s)) = Ok true → lines_distinct s.
Proof.
  intros Hgrid Hs.
  destruct (check_lines_range n s Hgrid) as (b & Hb & Hiff).
  apply Hiff. congruence.
Qed.

(** ** The other cells of a row *)

Lemma others_row (n : nat) (s : snapshot) (i j : nat) (line : list ref) :
  (∀ j', line !! j' = (λ c, ((i, j'), c)) <$> at_ s (i, j')) →
  ∀ x, x ∈ others (i, j) line ↔
       ∃ j' c', j' ≠ j ∧ at_ s (i, j') = Some c' ∧ x ∈ possibles c'.
Proof.
  intros Hline x. rewrite elem_of_others. split.
  - intros (rc & [j' Hj']%list_elem_of_lookup_1 & Hp & Hx).
    rewrite Hline in Hj'.
    destruct (at_ s (i, j')) as [c'|] eqn:Hc'; [|done].
    injection Hj' as <-. simpl in *.
    exists j', c'. split; [congruence | done].
  - intros (j' & c' & Hj & Hc' & Hx). exists ((i, j'), c').
    split; [|split; [simpl; congruence | done]].
    apply (list_elem_of_lookup_2 _ j'). by rewrite Hline, Hc'.
Qed.

Lemma hidden_single_others (p : pos) (c : cell) (line : list ref) :
  NoDup (possibles c) → (1 < length (possibles c))%nat →
  hidden_single p c (Ok line) =
  Ok (if decide (length (list_difference (possibles c) (others p line)) = 1%nat)
      then setPossibilities c (list_difference (possibles c) (others p line))
      else c).
Proof.
  intros Hnd Hlen. unfold hidden_single, getPossibilities.
  destruct (1 <? length (possibles c))%nat eqn:Hlt;
    [|apply Nat.ltb_ge in Hlt; lia].
  simpl. rewrite cross_out_others by done.
  destruct (decide _) as [He|He].
  - by rewrite He.
  - by apply Nat.eqb_neq in He as ->.
Qed.

(** ** The two readers on one stored list *)

Section WithAccessor.

Variable getConstraints : snapshot → list pyval.

Lemma readers_disagree (n : nat) (s : snapshot) (k : pyval)
    (ks : list pyval) :
  grid n s → isComplete s = false → lines_distinct s →
  constraints s = k :: ks → getConstraints s = constraints s →
  (∃ e, update_possibilities getConstraints s = Raise e) ∨
  checkConsistency s = Raise TypeError.
Proof.
  intros Hgrid Hcomp Hdist Hks Hacc.
  destruct (isComplete_unsolved s Hcomp) as (next & Hnext & Hat & _).
  change 0 with (Z.of_nat 0) in Hnext. apply index_nat in Hnext.
  unfold update_possibilities.
  destruct (unsolvedCells s) as [|rc rest]; [done|].
  injection Hnext as ->. rewrite fmap_cons. cbn [foldM]. rewrite Hat.
  unfold update_cell. rewrite Hacc, Hks.
  destruct (eliminate s next.2) as [c1|e]; [|left; by exists e].
  cbn [Py.bind foldM].
  destruct (tighten s c1 k) as [c2|e] eqn:Hc2; [|left; by exists e].
  right. apply tighten_reads in Hc2 as [b Hb].
  apply (readers_clash s) in Hb.
  unfold checkConsistency.
  destruct (check_lines_range n s Hgrid) as (d & -> & Hiff).
  apply Hiff in Hdist as ->. simpl. rewrite Hks. simpl. by rewrite Hb.
Qed.

End WithAccessor.

(** * The claims *)

(** ** Soundness of success *)

(** C1, as stated, fails: on the board of one empty cell [solve] returns
    [True], and the board the caller holds is as incomplete as before;
    the call hands back a truth value and nothing else. *)
Lemma C1_caller_board_unsolved :
  solve stored 3 blank1 = Some (Ok true) ∧
  ¬ (isComplete blank1 = true ∧ checkConsistency blank1 = Ok true).
Proof.
  split; [vm_compute; reflexivity|].
  intros [H _]. vm_compute in H. discriminate.
Qed.

(** C1, amended: when [solve] returns [True] on a well-formed board, there
    is a board that keeps every value of the given one, with the same
    constraints, on which [isComplete] and [checkConsistency] both hold:
    the board of the innermost call. *)
Theorem C1_solve_success_sound (getConstraints : snapshot → list pyval)
    (n fuel : nat) (s : snapshot) :
  grid n s → solve getConstraints fuel s = Some (Ok true) →
  ∃ s', extends s s' ∧ grid n s' ∧ constraints s' = constraints s ∧
        isComplete s' = true ∧ checkConsistency s' = Ok true.
Proof. apply solve_sound. Qed.

Lemma C1_solve_success_sound_witness :
  grid 1 blank1 ∧ solve stored 3 blank1 = Some (Ok true) ∧
  ∃ s', extends blank1 s' ∧ grid 1 s' ∧
        constraints s' = constraints blank1 ∧
        isComplete s' = true ∧ checkConsistency s' = Ok true.
Proof.
  assert (grid 1 blank1) as Hgrid
    by (apply gridb_grid; vm_compute; reflexivity).
  assert (solve stored 3 blank1 = Some (Ok true)) as Hs
    by (vm_compute; reflexivity).
  split; [exact Hgrid|]. split; [exact Hs|].
  exact (C1_solve_success_sound stored 1 3 blank1 Hgrid Hs).
Defined.

(** ** Termination *)

(** C2: on a well-formed [n] by [n] board with candidates in range, at most
    [n * n] cells are unsolved; every board a candidate is tried on has
    exactly one unsolved cell fewer than the board of the call; a call
    returns within [unsolved_count s + 1] nested calls, and with
    well-formed constraints what it returns is [True] or [False], within
    [n * n + 1] nested calls. *)
Theorem C2_solve_terminates (getConstraints : snapshot → list pyval)
    (n : nat) (M : Z) (s : snapshot) :
  grid n s → in_range M s → rows s ≤ M →
  (unsolved_count s ≤ n * n)%nat ∧
  (isComplete s = false →
   ∃ next, index (unsolvedCells s) 0 = Ok next ∧
     ∀ ns v,
       update_possibilities getConstraints (Snapshot.clone s) = Ok ns →
       v ∈ possibles next.2 →
       (unsolved_count (assign ns next.1 v) + 1 = unsolved_count s)%nat) ∧
  (∀ fuel, (unsolved_count s < fuel)%nat →
     ∃ r, solve getConstraints fuel s = Some r) ∧
  (Forall (λ k, ∃ l g, flat n k l g) (constraints s) →
   (∀ s', constraints s' = constraints s →
      Forall (λ k, ∃ l g, paired n k l g) (getConstraints s')) →
   ∃ b, solve getConstraints (S (n * n)) s = Some (Ok b)).
Proof.
  intros Hgrid Hrange HM.
  pose proof (unsolved_count_grid n s Hgrid) as Hcount.
  split; [done|]. split; [|split].
  - intros Hcomp.
    destruct (isComplete_unsolved s Hcomp) as (next & Hnext & Hat & Hval).
    exists next. split; [done|]. intros ns v Hns Hv. rewrite clone_id in Hns.
    destruct (trial_board getConstraints n s ns next.1 next.2 v
                Hgrid Hat Hval Hns) as (_ & _ & _ & Hdec & _).
    apply Hdec. destruct (Hrange _ _ Hat) as [_ Hdom].
    specialize (Hdom v Hv). lia.
  - intros fuel Hfuel.
    destruct (solve_returns getConstraints n M true fuel s)
      as (r & Hr & _); [done..|]. by exists r.
  - intros Hflat Hacc.
    destruct (solve_returns getConstraints n M false (S (n * n)) s)
      as (r & Hr & Hb); [done|done|done|done|lia|].
    destruct (Hb eq_refl) as [b ->]. by exists b.
Qed.

Lemma C2_solve_terminates_witness :
  ∃ b, solve regrouped (S (5 * 5)) puzzle5 = Some (Ok b).
Proof.
  assert (grid 5 puzzle5) as Hgrid
    by (apply gridb_grid; vm_compute; reflexivity).
  assert (in_range 5 puzzle5) as Hrange
    by (apply in_rangeb_in_range; vm_compute; reflexivity).
  assert (rows puzzle5 ≤ 5) as HM by (simpl; lia).
  assert (Forall (λ k, ∃ l g, flat 5 k l g) (constraints puzzle5)) as Hflat
    by (apply (forallb_Forall (flatb 5)); [apply flatb_flat | reflexivity]).
  destruct (C2_solve_terminates regrouped 5 5 puzzle5 Hgrid Hrange HM)
    as (_ & _ & _ & Hb).
  exact (Hb Hflat (regrouped_paired 5 puzzle5 Hflat)).
Defined.

(** ** Propagation and the candidates it leaves *)

(** C3 fails at the board [solve] passes to its second call on [puzzle5]:
    the cell at (0,3) enters propagation with the candidates 3 and 4 and
    leaves it with 1 and 2, the inequality step having replaced the list
    by [range(1, 3)]. *)
Theorem C3_propagation_adds_candidates :
  ∃ t t', trial5 = Ok t ∧ checkConsistency t = Ok true ∧
          update_possibilities regrouped (Snapshot.clone t) = Ok t' ∧
          domain t (0, 3)%nat = Some [3; 4] ∧
          domain t' (0, 3)%nat = Some [1; 2].
Proof.
  lazymatch eval vm_compute in trial5 with
  | Ok ?t =>
      lazymatch eval vm_compute in
        (update_possibilities regrouped (Snapshot.clone t)) with
      | Ok ?t' => exists t, t'
      end
  end.
  repeat split; vm_compute; reflexivity.
Qed.

(** ** A board that is inconsistent from the start *)

(** C4, as stated, fails: on the 3 by 3 board with the clue 2 at (0,0) and
    at (0,2), [solve] is entered, raises nothing and returns [False]. *)
Lemma C4_solve_runs_on_inconsistent_board :
  checkConsistency twice3 = Ok false ∧
  solve stored 1 twice3 = Some (Ok false) ∧
  ∀ e, solve stored 1 twice3 ≠ Some (Raise e).
Proof.
  split; [vm_compute; reflexivity|].
  split; [vm_compute; reflexivity|].
  intros e H. vm_compute in H. discriminate.
Qed.

(** C4, amended: on a well-formed board that [checkConsistency] rejects,
    [solve] reports no error: its first call returns [False], every
    candidate of the first unsolved cell being tried and rejected without
    a nested call. *)
Theorem C4_solve_rejects_inconsistent
    (getConstraints : snapshot → list pyval) (n : nat) (M : Z)
    (s : snapshot) :
  grid n s → in_range M s → rows s ≤ M →
  Forall (λ k, ∃ l g, flat n k l g) (constraints s) →
  (∀ s', constraints s' = constraints s →
     Forall (λ k, ∃ l g, paired n k l g) (getConstraints s')) →
  checkConsistency s = Ok false →
  solve getConstraints 1 s = Some (Ok false).
Proof. apply solve_inconsistent. Qed.

Lemma C4_solve_rejects_inconsistent_witness :
  checkConsistency twice3 = Ok false ∧
  solve stored 1 twice3 = Some (Ok false).
Proof.
  assert (checkConsistency twice3 = Ok false) as Hbad
    by (vm_compute; reflexivity).
  split; [exact Hbad|].
  apply (C4_solve_rejects_inconsistent stored 3 5 twice3).
  - apply gridb_grid. vm_compute. reflexivity.
  - apply in_rangeb_in_range. vm_compute. reflexivity.
  - simpl. lia.
  - simpl. constructor.
  - apply stored_no_constraints. reflexivity.
  - exact Hbad.
Defined.

(** ** The consistency check *)

(** C5: on a well-formed board with values that are not negative and
    constraints stored as flat tuples, [checkConsistency] returns a truth
    value, and it is [True] exactly when (a) no row and no column holds a
    nonzero value twice and (b) every constraint whose two cells are both
    nonzero has its lesser value strictly below its greater value. *)
Theorem C5_checkConsistency_iff (n : nat) (s : snapshot) :
  grid n s → (∀ p c, at_ s p = Some c → 0 ≤ val c) →
  Forall (λ k, ∃ l g, flat n k l g) (constraints s) →
  ∃ b, checkConsistency s = Ok b ∧
       (b = true ↔ lines_distinct s ∧ constraints_hold n s).
Proof. apply checkConsistency_grid. Qed.

Lemma C5_checkConsistency_iff_witness :
  ∃ b, checkConsistency puzzle5 = Ok b ∧
       (b = true ↔ lines_distinct puzzle5 ∧ constraints_hold 5 puzzle5).
Proof.
  apply (C5_checkConsistency_iff 5 puzzle5).
  - apply gridb_grid. vm_compute. reflexivity.
  - apply (values_nonneg 5). apply in_rangeb_in_range.
    vm_compute. reflexivity.
  - apply (forallb_Forall (flatb 5)); [apply flatb_flat | reflexivity].
Defined.

(** ** Cloning a cell *)

(** C6 fails at every cell: [clone] calls the three-argument constructor
    with four arguments, and the call raises [TypeError]. *)
Theorem C6_cell_clone_raises (c : cell) : Cell.clone c = Raise TypeError.
Proof. reflexivity. Qed.

(** ** The two boards of a step *)

(** C7: in a call on a well-formed board that is not complete, the
    candidates tried are those of the first unsolved cell as the board of
    the call holds it, and each of them is written on the clone that
    propagation has run on. *)
Theorem C7_candidates_before_propagation
    (getConstraints : snapshot → list pyval) (n : nat) (s : snapshot) :
  grid n s → isComplete s = false →
  ∃ next, index (unsolvedCells s) 0 = Ok next ∧
          at_ s next.1 = Some next.2 ∧ val next.2 = 0 ∧
          ∀ fuel, solve getConstraints (S fuel) s =
            match update_possibilities getConstraints (Snapshot.clone s) with
            | Raise e => Some (Raise e)
            | Ok ns =>
                first_success (solve getConstraints fuel)
                  (λ v, assign ns next.1 v) (possibles next.2)
            end.
Proof. apply solve_step. Qed.

Lemma C7_candidates_before_propagation_witness :
  ∃ next, index (unsolvedCells puzzle5) 0 = Ok next ∧
          at_ puzzle5 next.1 = Some next.2 ∧ val next.2 = 0 ∧
          ∀ fuel, solve regrouped (S fuel) puzzle5 =
            match update_possibilities regrouped (Snapshot.clone puzzle5) with
            | Raise e => Some (Raise e)
            | Ok ns =>
                first_success (solve regrouped fuel)
                  (λ v, assign ns next.1 v) (possibles next.2)
            end.
Proof.
  apply (C7_candidates_before_propagation regrouped 5 puzzle5).
  - apply gridb_grid. vm_compute. reflexivity.
  - vm_compute. reflexivity.
Defined.

(** ** Candidates within the dimension *)

(** C8, as stated, fails: every cell of a freshly built 3 by 3 board has
    the candidates 1 to 5. *)
Lemma C8_candidates_beyond_dimension :
  rows empty3 = 3 ∧
  ¬ (∀ p c, at_ empty3 p = Some c → dom_ok (rows empty3) (possibles c)).
Proof.
  split; [reflexivity|]. intros H.
  specialize (H (0, 0)%nat _ eq_refl 4). simpl in H.
  assert (4 ∈ [1; 2; 3; 4; 5]) as Hin by (repeat constructor).
  apply H in Hin. lia.
Qed.

(** C8, amended: for every dimension [N], from a board of dimension [N]
    with values in [[0, N]] and candidates in [[1, N]], cloning,
    propagation and the assignment of a value of [[0, N]] lead to such a
    board again; construction alone depends on [N]: a new cell has the
    candidates 1 to 5, which lie in [[1, N]] exactly when [N] is at
    least 5. *)
Theorem C8_domains_in_range (getConstraints : snapshot → list pyval)
    (N : Z) (s : snapshot) :
  (∀ r c v, dom_ok N (possibles (Cell.init r c v)) ↔ 5 ≤ N) ∧
  (rows s = N → in_range N s →
   in_range N (Snapshot.clone s) ∧
   (∀ s', update_possibilities getConstraints s = Ok s' → in_range N s') ∧
   (∀ r c v s', 0 ≤ v ≤ N → setCellVal s r c v = Ok s' → in_range N s')).
Proof.
  split.
  - intros r c v. split.
    + intros Hdom. assert (5 ∈ possibles (Cell.init r c v)) as H5
        by (simpl; repeat constructor).
      apply Hdom in H5. lia.
    + intros HN x Hx. simpl in Hx.
      repeat (apply elem_of_cons in Hx as [->|Hx]; [lia|]).
      by apply elem_of_nil in Hx.
  - intros Hrows Hs. split; [|split].
    + by rewrite clone_id.
    + intros s' Hs'.
      apply (update_possibilities_in_range getConstraints N s s');
        [done | lia | done].
    + intros r c v s' Hv [p ->]%setCellVal_Ok. by apply in_range_assign.
Qed.

Lemma C8_domains_in_range_witness :
  in_range 1
    (Snapshot.clone
       (update_at blank1 (0, 0)%nat (λ c, setPossibilities c [1]))) ∧
  (∀ s', update_possibilities stored
           (update_at blank1 (0, 0)%nat (λ c, setPossibilities c [1]))
         = Ok s' → in_range 1 s') ∧
  (∀ r c v s', 0 ≤ v ≤ 1 →
     setCellVal (update_at blank1 (0, 0)%nat (λ c, setPossibilities c [1]))
       r c v = Ok s' → in_range 1 s').
Proof.
  apply (proj2 (C8_domains_in_range stored 1
                  (update_at blank1 (0, 0)%nat
                     (λ c, setPossibilities c [1])))).
  - reflexivity.
  - apply in_rangeb_in_range. vm_compute. reflexivity.
Defined.

(** ** The hidden single of a row *)

(** C9: for a cell of row [i] with more than one candidate, none of them
    twice, the row step of propagation takes from the candidates those of
    the other cells of the row; when exactly one value is left the cell's
    candidates become that value alone, otherwise the cell is unchanged. *)
Theorem C9_row_hidden_single (n : nat) (s : snapshot) (i j : nat)
    (c : cell) :
  grid n s → (i < n)%nat → Cell.row c = Z.of_nat i →
  NoDup (possibles c) → (1 < length (possibles c))%nat →
  ∃ line,
    cellsByRow s (Cell.row c) = Ok line ∧
    (∀ x, x ∈ others (i, j) line ↔
          ∃ j' c', j' ≠ j ∧ at_ s (i, j') = Some c' ∧ x ∈ possibles c') ∧
    hidden_single (i, j) c (cellsByRow s (Cell.row c)) =
    Ok (if decide (length (list_difference (possibles c)
                             (others (i, j) line)) = 1%nat)
        then setPossibilities c
               (list_difference (possibles c) (others (i, j) line))
        else c).
Proof.
  intros Hgrid Hi Hrow Hnd Hlen.
  destruct (cellsByRow_grid n s Hgrid i Hi) as (line & Hline & _ & Hat).
  exists line. rewrite Hrow, Hline. split; [done|].
  split; [by apply (others_row n) | by apply hidden_single_others].
Qed.

Lemma C9_row_hidden_single_witness :
  ∃ line,
    cellsByRow puzzle5 0 = Ok line ∧
    (∀ x, x ∈ others (0, 0)%nat line ↔
          ∃ j' c', j' ≠ 0%nat ∧ at_ puzzle5 (0%nat, j') = Some c' ∧
                   x ∈ possibles c') ∧
    hidden_single (0, 0)%nat (Cell.init 0 0 0) (cellsByRow puzzle5 0) =
    Ok (if decide (length (list_difference [1; 2; 3; 4; 5]
                             (others (0, 0)%nat line)) = 1%nat)
        then setPossibilities (Cell.init 0 0 0)
               (list_difference [1; 2; 3; 4; 5] (others (0, 0)%nat line))
        else Cell.init 0 0 0).
Proof.
  apply (C9_row_hidden_single 5 puzzle5 0 0 (Cell.init 0 0 0)).
  - apply gridb_grid. vm_compute. reflexivity.
  - lia.
  - reflexivity.
  - refine (bool_decide_unpack (NoDup [1; 2; 3; 4; 5]) _).
    vm_compute. exact I.
  - simpl. lia.
Defined.

(** ** One constraint list, two ways to subscript it *)

(** C10, as stated, fails: on a solved board with a stored constraint,
    handed out as it is stored, propagation reads no constraint and
    [checkConsistency] reads the flat tuple it expects; both return. *)
Lemma C10_both_readers_return :
  constraints full5 = [flat_constraint 0 0 0 1] ∧
  update_possibilities stored full5 = Ok full5 ∧
  checkConsistency full5 = Ok true.
Proof. repeat split; vm_compute; reflexivity. Qed.

(** C10, amended: when [getConstraints] hands out the stored list as it
    is, on a well-formed board with a stored constraint, an unsolved cell
    and no value twice in a row or column, one of the two functions
    raises: [update_possibilities] raises, or [checkConsistency] raises
    [TypeError]. *)
Theorem C10_readers_disagree (getConstraints : snapshot → list pyval)
    (n : nat) (s : snapshot) (k : pyval) (ks : list pyval) :
  grid n s → isComplete s = false → lines_distinct s →
  constraints s = k :: ks → getConstraints s = constraints s →
  (∃ e, update_possibilities getConstraints s = Raise e) ∨
  checkConsistency s = Raise TypeError.
Proof. apply readers_disagree. Qed.

Lemma C10_readers_disagree_witness :
  (∃ e, update_possibilities stored puzzle5 = Raise e) ∨
  checkConsistency puzzle5 = Raise TypeError.
Proof.
  assert (grid 5 puzzle5) as Hgrid
    by (apply gridb_grid; vm_compute; reflexivity).
  apply (C10_readers_disagree stored 5 puzzle5
           (flat_constraint 0 3 0 0) []).
  - exact Hgrid.
  - vm_compute. reflexivity.
  - apply (check_lines_distinct 5); [exact Hgrid|].
    vm_compute. reflexivity.
  - reflexivity.
  - reflexivity.
Defined.

(** * Further properties of the code *)

(** ** What propagation leaves alone *)

Lemma erase_at_skeleton (s s' : snapshot) (p : pos) :
  skeleton s' = skeleton s → erase <$> at_ s' p = erase <$> at_ s p.
Proof.
  intros Hsk. destruct p as [i j]. by rewrite <- !skeleton_lookup, Hsk.
Qed.

Section WithAccessor.

Variable getConstraints : snapshot → list pyval.

Lemma update_possibilities_solved (s s' : snapshot) (p : pos) (c : cell) :
  update_possibilities getConstraints s = Ok s' →
  at_ s p = Some c → val c ≠ 0 → at_ s' p = Some c.
Proof.
  intros Hs' Hc Hv. unfold update_possibilities in Hs'. revert Hs'.
  apply (foldM_invariant (λ st, at_ st p = Some c)); [|done].
  intros st q st' Hst Hq Hbody.
  apply list_elem_of_fmap in Hq as (rc & -> & [Hrc Hz]%elem_of_unsolvedCells).
  destruct (at_ st rc.1) as [d|]; [|by injection Hbody as <-].
  apply bind_Ok in Hbody as (d' & _ & [= <-]).
  rewrite at_update_at_ne; [done|]. intros <-. congruence.
Qed.

Lemma update_possibilities_complete (s : snapshot) :
  isComplete s = true → update_possibilities getConstraints s = Ok s.
Proof.
  intros Hs. unfold update_possibilities.
  by rewrite (isComplete_true_unsolved s Hs).
Qed.

End WithAccessor.

(** X1: [isComplete] returns [True] exactly when no cell holds the value
    0; a negative value counts as filled, and so does a board without
    cells. *)
Theorem X1_isComplete_iff (s : snapshot) :
  isComplete s = true ↔ ∀ p c, at_ s p = Some c → val c ≠ 0.
Proof.
  split.
  - intros Hs p c Hc Hv.
    assert (isComplete s = false) by (apply isComplete_false; eauto).
    congruence.
  - intros Hs. destruct (isComplete s) eqn:Hc; [done|].
    apply isComplete_false in Hc as (p & c & Hc & Hv).
    by destruct (Hs p c Hc).
Qed.

(** X2: a pass of propagation that returns has changed neither the
    dimension, nor the constraints, nor the row, column or value of any
    cell: candidates are all it writes. *)
Theorem X2_propagation_keeps_values
    (getConstraints : snapshot → list pyval) (s s' : snapshot) :
  update_possibilities getConstraints s = Ok s' →
  rows s' = rows s ∧ constraints s' = constraints s ∧
  ∀ p, erase <$> at_ s' p = erase <$> at_ s p.
Proof.
  intros (Hrows & Hks & Hsk)%update_possibilities_skeleton.
  split; [done|]. split; [done|]. intros p. by apply erase_at_skeleton.
Qed.

Lemma X2_propagation_keeps_values_witness :
  ∃ s', update_possibilities regrouped puzzle5 = Ok s' ∧
        rows s' = rows puzzle5 ∧ constraints s' = constraints puzzle5 ∧
        ∀ p, erase <$> at_ s' p = erase <$> at_ puzzle5 p.
Proof.
  lazymatch eval vm_compute in (update_possibilities regrouped puzzle5) with
  | Ok ?s' =>
      exists s';
      assert (update_possibilities regrouped puzzle5 = Ok s') as Hs'
        by (vm_compute; reflexivity)
  end.
  split; [exact Hs'|].
  exact (X2_propagation_keeps_values regrouped puzzle5 _ Hs').
Defined.

(** X3: a cell that holds a value is not visited by propagation: it
    keeps its candidate list as it is, and on a complete board the pass
    changes nothing at all. *)
Theorem X3_propagation_skips_solved
    (getConstraints : snapshot → list pyval) (s s' : snapshot) :
  update_possibilities getConstraints s = Ok s' →
  (∀ p c, at_ s p = Some c → val c ≠ 0 → at_ s' p = Some c) ∧
  (isComplete s = true → s' = s).
Proof.
  intros Hs'. split.
  - intros p c. by apply (update_possibilities_solved getConstraints).
  - intros Hc.
    rewrite (update_possibilities_complete getConstraints s Hc) in Hs'.
    congruence.
Qed.

Lemma X3_propagation_skips_solved_witness :
  ∃ s', update_possibilities regrouped puzzle5 = Ok s' ∧
        (∀ p c, at_ puzzle5 p = Some c → val c ≠ 0 → at_ s' p = Some c) ∧
        (isComplete puzzle5 = true → s' = puzzle5).
Proof.
  lazymatch eval vm_compute in (update_possibilities regrouped puzzle5) with
  | Ok ?s' =>
      exists s';
      assert (update_possibilities regrouped puzzle5 = Ok s') as Hs'
        by (vm_compute; reflexivity)
  end.
  split; [exact Hs'|].
  exact (X3_propagation_skips_solved regrouped puzzle5 _ Hs').
Defined.

(** X4: on a well-formed board, with every constraint handed out as a
    pair of positions of the grid, a pass of propagation raises nothing. *)
Theorem X4_propagation_returns
    (getConstraints : snapshot → list pyval) (n : nat) (s : snapshot) :
  grid n s →
  (∀ s', constraints s' = constraints s →
     Forall (λ k, ∃ l g, paired n k l g) (getConstraints s')) →
  ∃ s', update_possibilities getConstraints s = Ok s'.
Proof. apply update_possibilities_total. Qed.

Lemma X4_propagation_returns_witness :
  ∃ s', update_possibilities regrouped puzzle5 = Ok s'.
Proof.
  apply (X4_propagation_returns regrouped 5 puzzle5).
  - apply gridb_grid. vm_compute. reflexivity.
  - apply regrouped_paired.
    apply (forallb_Forall (flatb 5)); [apply flatb_flat | reflexivity].
Defined.

(** ** The steps of propagation, one by one *)

Lemma elem_of_nonzero (x : Z) (l : list Z) : x ∈ nonzero l ↔ x ≠ 0 ∧ x ∈ l.
Proof. unfold nonzero. by rewrite list_elem_of_filter. Qed.

Lemma elem_of_remove_NoDup (x y : Z) (l : list Z) :
  NoDup l → x ∈ Py.remove y l ↔ x ∈ l ∧ x ≠ y.
Proof.
  induction 1 as [|z l Hz Hl IH]; simpl.
  - split; [by intros ?%elem_of_nil | by intros [?%elem_of_nil _]].
  - destruct (z =? y) eqn:Hzy.
    + apply Z.eqb_eq in Hzy as ->. rewrite elem_of_cons. split.
      * intros Hx. split; [by right|]. by intros ->.
      * by intros [[->|Hx] Hne].
    + apply Z.eqb_neq in Hzy. rewrite !elem_of_cons, IH. split.
      * intros [->|[Hx Hne]]; [split; [by left | done]|].
        split; [by right | done].
      * intros [[->|Hx] Hne]; [by left | by right].
Qed.

Lemma NoDup_remove (y : Z) (l : list Z) : NoDup l → NoDup (Py.remove y l).
Proof.
  induction 1 as [|z l Hz Hl IH]; simpl; [constructor|].
  destruct (z =? y); [done|]. apply list.NoDup_cons. split; [|done].
  by intros ?%elem_of_remove.
Qed.

Lemma NoDup_range (a b : Z) : NoDup (range a b).
Proof. apply NoDup_seqZ. Qed.

Lemma mem_true (x : Z) (l : list Z) : mem x l = true ↔ x ∈ l.
Proof. unfold mem. apply bool_decide_eq_true. Qed.

Lemma is_endpoint_pair (a b a' b' : Z) (e : Z) (c : cell) :
  is_endpoint (PTuple [PTuple [PInt a; PInt b]; PTuple [PInt a'; PInt b']])
    0 c = Ok ((a =? Cell.row c) && (b =? Cell.col c)) ∧
  is_endpoint (PTuple [PTuple [PInt a; PInt b]; PTuple [PInt a'; PInt b']])
    1 c = Ok ((a' =? Cell.row c) && (b' =? Cell.col c)).
Proof.
  unfold is_endpoint. rewrite getitem_pair_0, getitem_pair_1. simpl.
  split; by destruct (_ =? Cell.row c).
Qed.

Lemma is_endpoint_here (n : nat) (k : pyval) (l g : pos) (c : cell) :
  paired n k l g →
  is_endpoint k 0 c =
    Ok (bool_decide ((Cell.row c, Cell.col c) = (Z.of_nat l.1, Z.of_nat l.2))) ∧
  is_endpoint k 1 c =
    Ok (bool_decide ((Cell.row c, Cell.col c) = (Z.of_nat g.1, Z.of_nat g.2))).
Proof.
  intros [-> _].
  destruct (is_endpoint_pair (Z.of_nat l.1) (Z.of_nat l.2)
              (Z.of_nat g.1) (Z.of_nat g.2) 0 c) as [-> ->].
  split; f_equal.
  - destruct (bool_decide _) eqn:Hd.
    + apply bool_decide_eq_true in Hd as [= -> ->]. by rewrite !Z.eqb_refl.
    + apply bool_decide_eq_false in Hd. apply andb_false_iff.
      destruct (_ =? Cell.row c) eqn:H1; [|by left]. right.
      apply Z.eqb_eq in H1. apply Z.eqb_neq. congruence.
  - destruct (bool_decide _) eqn:Hd.
    + apply bool_decide_eq_true in Hd as [= -> ->]. by rewrite !Z.eqb_refl.
    + apply bool_decide_eq_false in Hd. apply andb_false_iff.
      destruct (_ =? Cell.row c) eqn:H1; [|by left]. right.
      apply Z.eqb_eq in H1. apply Z.eqb_neq. congruence.
Qed.

Lemma eliminate_grid (n : nat) (s : snapshot) (i j : nat) (c : cell) :
  grid n s → (i < n)%nat → (j < n)%nat →
  Cell.row c = Z.of_nat i → Cell.col c = Z.of_nat j →
  ∃ c', eliminate s c = Ok c' ∧ erase c' = erase c ∧
        NoDup (possibles c') ∧
        ∀ x, x ∈ possibles c' ↔
             x ∈ possibles c ∧
             ¬ (x ≠ 0 ∧ ∃ k d, (at_ s (i, k) = Some d ∨
                                at_ s (k, j) = Some d) ∧ val d = x).
Proof.
  intros Hgrid Hi Hj Hrow Hcol.
  destruct (lines_grid n s Hgrid i j Hi Hj)
    as (row & col & vs & Hr & Hc & Hvs & Hv1 & Hv2).
  unfold eliminate. rewrite Hrow, Hcol, Hr, Hc. simpl. rewrite Hvs. simpl.
  eexists. split; [done|]. split; [done|]. simpl.
  split; [apply NoDup_set_difference|].
  intros x. rewrite !elem_of_set_difference, !elem_of_nonzero.
  assert (∀ y, y ∈ vs.1 ↔ ∃ k d, at_ s (i, k) = Some d ∧ val d = y) as H1.
  { intros y. split.
    - intros [k Hk]%list_elem_of_lookup_1. rewrite Hv1 in Hk.
      destruct (at_ s (i, k)) as [d|] eqn:Hd; [|done].
      injection Hk as <-. eauto.
    - intros (k & d & Hd & <-). apply (list_elem_of_lookup_2 _ k).
      by rewrite Hv1, Hd. }
  assert (∀ y, y ∈ vs.2 ↔ ∃ k d, at_ s (k, j) = Some d ∧ val d = y) as H2.
  { intros y. split.
    - intros [k Hk]%list_elem_of_lookup_1. rewrite Hv2 in Hk.
      destruct (at_ s (k, j)) as [d|] eqn:Hd; [|done].
      injection Hk as <-. eauto.
    - intros (k & d & Hd & <-). apply (list_elem_of_lookup_2 _ k).
      by rewrite Hv2, Hd. }
  rewrite H1, H2. split.
  - intros [[Hx Hr'] Hc']. split; [done|].
    intros (Hx0 & k & d & [Hd|Hd] & Hv).
    + apply Hr'. eauto.
    + apply Hc'. eauto.
  - intros [Hx Hno]. split; [split; [done|]|].
    + intros (Hx0 & k & d & Hd & Hv). apply Hno. split; [done|].
      exists k, d. eauto.
    + intros (Hx0 & k & d & Hd & Hv). apply Hno. split; [done|].
      exists k, d. eauto.
Qed.

Lemma tighten_elsewhere (n : nat) (s : snapshot) (k : pyval) (l g : pos)
    (c : cell) :
  paired n k l g →
  (Cell.row c, Cell.col c) ≠ (Z.of_nat l.1, Z.of_nat l.2) →
  (Cell.row c, Cell.col c) ≠ (Z.of_nat g.1, Z.of_nat g.2) →
  tighten s c k = Ok c.
Proof.
  intros Hk Hl Hg. unfold tighten.
  destruct (is_endpoint_here n k l g c Hk) as [-> H1].
  rewrite bool_decide_eq_false_2 by done. simpl. rewrite H1.
  by rewrite bool_decide_eq_false_2 by done.
Qed.

Lemma tighten_lesser (n : nat) (s : snapshot) (k : pyval) (l g : pos)
    (c hi : cell) :
  grid n s → paired n k l g → l ≠ g →
  (Cell.row c, Cell.col c) = (Z.of_nat l.1, Z.of_nat l.2) →
  at_ s g = Some hi →
  ∃ c', tighten s c k = Ok c' ∧ erase c' = erase c ∧
        (val hi ≠ 0 → ∀ x, x ∈ possibles c' ↔ 1 ≤ x < val hi) ∧
        (val hi = 0 → NoDup (possibles c) →
         ∀ x, x ∈ possibles c' ↔ x ∈ possibles c ∧ x ≠ rows s).
Proof.
  intros Hgrid Hk Hne Hc Hhi.
  destruct (endpoint_paired n s Hgrid k l g Hk)
    as (lo & hi' & _ & Hhi' & _ & Hend).
  assert (hi' = hi) as -> by congruence.
  assert ((Cell.row c, Cell.col c) ≠ (Z.of_nat g.1, Z.of_nat g.2)) as Hg.
  { rewrite Hc. intros [= H1 H2]. apply Hne.
    destruct l, g. simpl in *. f_equal; lia. }
  unfold tighten.
  destruct (is_endpoint_here n k l g c Hk) as [-> _].
  rewrite bool_decide_eq_true_2 by done. simpl. rewrite Hend. simpl.
  match goal with |- context [setPossibilities c ?np] =>
    destruct (is_endpoint_here n k l g (setPossibilities c np) Hk)
      as [_ H1] end.
  rewrite H1. simpl. rewrite bool_decide_eq_false_2 by done.
  eexists. split; [done|]. split; [done|]. simpl.
  unfold getVal, getPossibilities. split.
  - intros Hv x. apply Z.eqb_neq in Hv as ->. simpl.
    rewrite elem_of_range. lia.
  - intros Hv Hnd x. apply Z.eqb_eq in Hv as ->. simpl.
    destruct (mem (rows s) (possibles c)) eqn:Hm.
    + by apply elem_of_remove_NoDup.
    + split; [|by intros [? _]]. intros Hx. split; [done|]. intros ->.
      apply mem_true in Hx. congruence.
Qed.

Lemma tighten_greater (n : nat) (s : snapshot) (k : pyval) (l g : pos)
    (c lo : cell) :
  grid n s → paired n k l g → l ≠ g →
  (Cell.row c, Cell.col c) = (Z.of_nat g.1, Z.of_nat g.2) →
  at_ s l = Some lo →
  ∃ c', tighten s c k = Ok c' ∧ erase c' = erase c ∧
        (val lo ≠ 0 → ∀ x, x ∈ possibles c' ↔ val lo < x ≤ rows s) ∧
        (val lo = 0 → NoDup (possibles c) →
         ∀ x, x ∈ possibles c' ↔ x ∈ possibles c ∧ x ≠ 1).
Proof.
  intros Hgrid Hk Hne Hc Hlo.
  destruct (endpoint_paired n s Hgrid k l g Hk)
    as (lo' & hi & Hlo' & _ & Hend & _).
  assert (lo' = lo) as -> by congruence.
  assert ((Cell.row c, Cell.col c) ≠ (Z.of_nat l.1, Z.of_nat l.2)) as Hl.
  { rewrite Hc. intros [= H1 H2]. apply Hne.
    destruct l, g. simpl in *. f_equal; lia. }
  unfold tighten.
  destruct (is_endpoint_here n k l g c Hk) as [-> H1].
  rewrite bool_decide_eq_false_2 by done. simpl. rewrite H1.
  rewrite bool_decide_eq_true_2 by done. rewrite Hend. simpl.
  eexists. split; [done|]. split; [done|]. simpl.
  unfold getVal, getPossibilities. split.
  - intros Hv x. apply Z.eqb_neq in Hv as ->. simpl.
    rewrite elem_of_range. lia.
  - intros Hv Hnd x. apply Z.eqb_eq in Hv as ->. simpl.
    destruct (mem 1 (possibles c)) eqn:Hm.
    + by apply elem_of_remove_NoDup.
    + split; [|by intros [? _]]. intros Hx. split; [done|]. intros ->.
      apply mem_true in Hx. congruence.
Qed.

Lemma others_col (n : nat) (s : snapshot) (i j : nat) (line : list ref) :
  (∀ i', line !! i' = (λ c, ((i', j), c)) <$> at_ s (i', j)) →
  ∀ x, x ∈ others (i, j) line ↔
       ∃ i' c', i' ≠ i ∧ at_ s (i', j) = Some c' ∧ x ∈ possibles c'.
Proof.
  intros Hline x. rewrite elem_of_others. split.
  - intros (rc & [i' Hi']%list_elem_of_lookup_1 & Hp & Hx).
    rewrite Hline in Hi'.
    destruct (at_ s (i', j)) as [c'|] eqn:Hc'; [|done].
    injection Hi' as <-. simpl in *.
    exists i', c'. split; [congruence | done].
  - intros (i' & c' & Hi & Hc' & Hx). exists ((i', j), c').
    split; [|split; [simpl; congruence | done]].
    apply (list_elem_of_lookup_2 _ i'). by rewrite Hline, Hc'.
Qed.

(** ** What a pass of propagation does to the candidates *)

Lemma tighten_shrinks (s : snapshot) (c c' : cell) (k : pyval) :
  (∀ d, endpoint s k 0 = Ok d → val d = 0) →
  (∀ d, endpoint s k 1 = Ok d → val d = 0) →
  tighten s c k = Ok c' →
  ∀ x, x ∈ possibles c' → x ∈ possibles c.
Proof.
  intros H0 H1. unfold tighten.
  intros (smaller_here & _ & (st & Hst & H2)%bind_Ok)%bind_Ok.
  assert ((∀ x, x ∈ possibles st.1 → x ∈ possibles c) ∧
          (∀ x, x ∈ st.2 → x ∈ possibles c)) as [Hs1 Hs2].
  { destruct smaller_here; [|by injection Hst as <-].
    apply bind_Ok in Hst as (bigger & Hb & [= <-]).
    apply H1 in Hb. unfold getVal. rewrite Hb. simpl.
    destruct (mem _ _); [|done].
    split; intros x; apply elem_of_remove. }
  clear Hst. apply bind_Ok in H2 as (greater_here & _ & H2).
  destruct greater_here; [|by injection H2 as <-].
  apply bind_Ok in H2 as (smaller & Hsm & [= <-]).
  apply H0 in Hsm. unfold getVal. rewrite Hsm. simpl.
  destruct (mem _ _); [|done].
  intros x Hx%elem_of_remove. by apply Hs2.
Qed.

Lemma tighten_NoDup (s : snapshot) (c c' : cell) (k : pyval) :
  tighten s c k = Ok c' → NoDup (possibles c) → NoDup (possibles c').
Proof.
  unfold tighten.
  intros (smaller_here & _ & (st & Hst & H2)%bind_Ok)%bind_Ok Hnd.
  assert (NoDup (possibles st.1) ∧ NoDup st.2) as [Hn1 Hn2].
  { destruct smaller_here; [|by injection Hst as <-].
    apply bind_Ok in Hst as (bigger & _ & [= <-]). simpl.
    assert (NoDup
      (if negb (getVal bigger =? 0) then range 1 (getVal bigger)
       else if mem (rows s) (getPossibilities c)
            then Py.remove (rows s) (getPossibilities c)
            else getPossibilities c)) as H; [|done].
    destruct (negb _); [apply NoDup_range|].
    destruct (mem _ _); [by apply NoDup_remove | done]. }
  clear Hst. apply bind_Ok in H2 as (greater_here & _ & H2).
  destruct greater_here; [|by injection H2 as <-].
  apply bind_Ok in H2 as (smaller & _ & [= <-]). simpl.
  destruct (negb _); [apply NoDup_range|].
  destruct (mem _ _); [by apply NoDup_remove | done].
Qed.

Lemma foldM_tighten_NoDup (s : snapshot) (ks : list pyval) (c c' : cell) :
  foldM (tighten s) c ks = Ok c' → NoDup (possibles c) →
  NoDup (possibles c').
Proof.
  revert c. induction ks as [|k ks IH]; intros c; simpl.
  - by intros [= <-].
  - intros (c1 & H1 & H2)%bind_Ok Hnd.
    apply (IH c1 H2). by apply (tighten_NoDup s c c1 k).
Qed.

Lemma foldM_tighten_shrinks (s : snapshot) (ks : list pyval) (c c' : cell) :
  (∀ k d, k ∈ ks → endpoint s k 0 = Ok d → val d = 0) →
  (∀ k d, k ∈ ks → endpoint s k 1 = Ok d → val d = 0) →
  foldM (tighten s) c ks = Ok c' →
  ∀ x, x ∈ possibles c' → x ∈ possibles c.
Proof.
  revert c. induction ks as [|k ks IH]; intros c H0 H1; simpl.
  - by intros [= <-].
  - intros (c1 & Hc1 & Hc')%bind_Ok x Hx.
    apply (tighten_shrinks s c c1 k).
    + intros d. apply H0. left.
    + intros d. apply H1. left.
    + done.
    + apply (IH c1); [| |done|done].
      * intros k' d Hk'. apply H0. by right.
      * intros k' d Hk'. apply H1. by right.
Qed.

Lemma eliminate_NoDup (s : snapshot) (c c' : cell) :
  eliminate s c = Ok c' → NoDup (possibles c').
Proof.
  unfold eliminate.
  intros (row & _ & (col & _ & (vs & _ & [= <-])%bind_Ok)%bind_Ok)%bind_Ok.
  simpl. apply NoDup_set_difference.
Qed.

Lemma hidden_single_NoDup (p : pos) (c c' : cell) (line : res (list ref)) :
  hidden_single p c line = Ok c' → NoDup (possibles c) →
  NoDup (possibles c').
Proof.
  unfold hidden_single. destruct (_ <? _)%nat; [|by intros [= <-]].
  intros (l & _ & H)%bind_Ok Hnd. destruct (_ =? _)%nat.
  - injection H as <-. simpl. unfold getPossibilities.
    rewrite cross_out_others by done. by apply NoDup_list_difference.
  - by injection H as <-.
Qed.

Section WithAccessor.

Variable getConstraints : snapshot → list pyval.

Lemma update_cell_NoDup (s : snapshot) (p : pos) (c c' : cell) :
  update_cell getConstraints s p c = Ok c' → NoDup (possibles c').
Proof.
  unfold update_cell.
  intros (c1 & H1 & (c2 & H2 & (c3 & H3 & H4)%bind_Ok)%bind_Ok)%bind_Ok.
  apply eliminate_NoDup in H1. apply foldM_tighten_NoDup in H2; [|done].
  apply hidden_single_NoDup in H3; [|done].
  by apply hidden_single_NoDup in H4.
Qed.

Lemma update_cell_shrinks (s : snapshot) (p : pos) (c c' : cell) :
  (∀ k d, k ∈ getConstraints s → endpoint s k 0 = Ok d → val d = 0) →
  (∀ k d, k ∈ getConstraints s → endpoint s k 1 = Ok d → val d = 0) →
  update_cell getConstraints s p c = Ok c' →
  ∀ x, x ∈ possibles c' → x ∈ possibles c.
Proof.
  intros H0 H1. unfold update_cell.
  intros (c1 & Hc1 & (c2 & Hc2 & (c3 & Hc3 & Hc4)%bind_Ok)%bind_Ok)%bind_Ok
    x Hx.
  apply eliminate_Ok in Hc1 as [_ Hs1]. apply Hs1.
  apply (foldM_tighten_shrinks s _ c1 c2 H0 H1 Hc2).
  apply hidden_single_Ok in Hc3 as [_ Hs3]. apply Hs3.
  apply hidden_single_Ok in Hc4 as [_ Hs4]. by apply Hs4.
Qed.

(** The step of the loop of [update_possibilities] at the position [q]. *)
Lemma propagation_step (st st' : snapshot) (q : pos) :
  match at_ st q with
  | Some c =>
      let! c' := update_cell getConstraints st q c in
      Ok (update_at st q (λ _, c'))
  | None => Ok st
  end = Ok st' →
  st' = st ∧ at_ st q = None ∨
  ∃ c c', at_ st q = Some c ∧ update_cell getConstraints st q c = Ok c' ∧
          st' = update_at st q (λ _, c').
Proof.
  destruct (at_ st q) as [c|]; [|intros [= <-]; by left].
  intros (c' & Hc' & [= <-])%bind_Ok. right. by exists c, c'.
Qed.

Lemma propagation_visited_NoDup (l : list pos) (st s' : snapshot)
    (p : pos) :
  foldM (λ s p,
           match at_ s p with
           | Some c => let! c' := update_cell getConstraints s p c in
                       Ok (update_at s p (λ _, c'))
           | None => Ok s
           end) st l = Ok s' →
  p ∈ l → ∀ c', at_ s' p = Some c' → NoDup (possibles c').
Proof.
  revert st. induction l as [|q l IH]; intros st Hfold Hp; simpl in Hfold.
  { by apply elem_of_nil in Hp. }
  apply bind_Ok in Hfold as (st1 & Hst1 & Hfold).
  destruct (decide (p ∈ l)) as [Hin|Hnin]; [by apply (IH st1)|].
  apply elem_of_cons in Hp as [->|?]; [|done].
  revert Hfold.
  apply (foldM_invariant
    (λ st', ∀ c', at_ st' q = Some c' → NoDup (possibles c'))).
  - intros st2 r st3 Hst2 _ Hstep c'.
    apply propagation_step in Hstep
      as [[-> _]|(d & d' & Hd & Hd' & ->)]; [apply Hst2|].
    rewrite at_update_at. destruct (decide (r = q)) as [->|]; [|apply Hst2].
    rewrite Hd. intros [= <-]. by eapply update_cell_NoDup.
  - intros c'.
    apply propagation_step in Hst1
      as [[-> Hnone]|(d & d' & Hd & Hd' & ->)]; [congruence|].
    rewrite at_update_at_eq, Hd. intros [= <-].
    by eapply update_cell_NoDup.
Qed.

Lemma update_possibilities_NoDup (s s' : snapshot) (p : pos) (c' : cell) :
  update_possibilities getConstraints s = Ok s' →
  at_ s' p = Some c' → val c' = 0 → NoDup (possibles c').
Proof.
  intros Hs' Hc' Hv.
  destruct (update_possibilities_skeleton getConstraints s s' Hs')
    as (_ & _ & Hsk).
  destruct (skeleton_at s s' p c' Hsk Hc') as (c & Hc & He).
  assert (p ∈ (unsolvedCells s).*1) as Hp.
  { apply list_elem_of_fmap. exists (p, c). split; [done|].
    apply elem_of_unsolvedCells. split; [done|]. simpl.
    unfold erase in He. congruence. }
  by apply (propagation_visited_NoDup _ s s' p Hs').
Qed.

Lemma update_possibilities_shrinks (n : nat) (s s' : snapshot) :
  grid n s →
  (∀ st, constraints st = constraints s →
     Forall (λ k, ∃ l g lo hi, paired n k l g ∧
                  at_ s l = Some lo ∧ at_ s g = Some hi ∧
                  val lo = 0 ∧ val hi = 0) (getConstraints st)) →
  update_possibilities getConstraints s = Ok s' →
  ∀ p c c', at_ s p = Some c → at_ s' p = Some c' →
    ∀ x, x ∈ possibles c' → x ∈ possibles c.
Proof.
  intros Hgrid Hacc Hs' p c c' Hc. revert Hs' c'.
  unfold update_possibilities.
  enough (∀ st', foldM (λ s p,
            match at_ s p with
            | Some c => let! c' := update_cell getConstraints s p c in
                        Ok (update_at s p (λ _, c'))
            | None => Ok s
            end) s (unsolvedCells s).*1 = Ok st' →
          (rows st' = rows s ∧ constraints st' = constraints s ∧
           skeleton st' = skeleton s) ∧
          ∀ c', at_ st' p = Some c' →
            ∀ x, x ∈ possibles c' → x ∈ possibles c) as H.
  { intros Hs'. by apply H. }
  intros st'.
  apply (foldM_invariant
    (λ st', (rows st' = rows s ∧ constraints st' = constraints s ∧
             skeleton st' = skeleton s) ∧
            ∀ c', at_ st' p = Some c' →
              ∀ x, x ∈ possibles c' → x ∈ possibles c)).
  - intros st q st2 [(Hr & Hk & Hsk) Hsub] _ Hstep.
    apply propagation_step in Hstep
      as [[-> _]|(d & d' & Hd & Hd' & ->)]; [done|].
    split.
    + split; [done|]. split; [done|]. rewrite <- Hsk.
      apply skeleton_update_at. intros d0 Hd0.
      assert (d0 = d) as -> by congruence.
      by eapply update_cell_erase.
    + intros c'. rewrite at_update_at.
      destruct (decide (q = p)) as [->|]; [|apply Hsub].
      rewrite Hd. intros [= <-] x Hx. apply (Hsub d Hd).
      assert (grid n st) as Hgst by by apply (grid_skeleton n s).
      assert (∀ k e d0, k ∈ getConstraints st → e = 0 ∨ e = 1 →
                endpoint st k e = Ok d0 → val d0 = 0) as Hend.
      { intros k e d0 Hin He Hd0.
        specialize (Hacc st Hk). rewrite list.Forall_forall in Hacc.
        destruct (Hacc k Hin) as (l & g & lo & hi & Hp & Hlo & Hhi & Hvl & Hvh).
        destruct (endpoint_paired n st Hgst k l g Hp)
          as (lo' & hi' & Hlo' & Hhi' & He0 & He1).
        pose proof (erase_at_skeleton s st l Hsk) as Hel.
        pose proof (erase_at_skeleton s st g Hsk) as Heg.
        rewrite Hlo, Hlo' in Hel. rewrite Hhi, Hhi' in Heg.
        simpl in Hel, Heg. unfold erase in Hel, Heg.
        destruct He as [-> | ->].
        - assert (d0 = lo') as -> by congruence. congruence.
        - assert (d0 = hi') as -> by congruence. congruence. }
      apply (update_cell_shrinks st p d d'); [| |done|done].
      * intros k d0 Hin. apply (Hend k 0 d0 Hin). by left.
      * intros k d0 Hin. apply (Hend k 1 d0 Hin). by right.
  - split; [done|]. intros c'. rewrite Hc. by intros [= <-].
Qed.

End WithAccessor.

(** ** The checks and the values they read *)

Lemma isComplete_skeleton (s s' : snapshot) :
  skeleton s' = skeleton s → isComplete s' = isComplete s.
Proof.
  intros Hsk.
  destruct (isComplete s) eqn:Hs, (isComplete s') eqn:Hs'; try done.
  - apply isComplete_false in Hs' as (p & c' & Hc' & Hv).
    destruct (skeleton_at s s' p c' Hsk Hc') as (c & Hc & He).
    assert (isComplete s = false); [|congruence].
    apply isComplete_false. exists p, c. split; [done|].
    unfold erase in He. congruence.
  - apply isComplete_false in Hs as (p & c & Hc & Hv).
    destruct (skeleton_at s' s p c (eq_sym Hsk) Hc) as (c' & Hc' & He).
    assert (isComplete s' = false); [|congruence].
    apply isComplete_false. exists p, c'. split; [done|].
    unfold erase in He. congruence.
Qed.

Lemma extends_skeleton (s s' : snapshot) :
  skeleton s' = skeleton s → extends s s'.
Proof.
  intros Hsk p c Hc.
  pose proof (erase_at_skeleton s s' p Hsk) as He. rewrite Hc in He.
  destruct (at_ s' p) as [c'|]; [|done].
  exists c'. split; [done|]. simpl in He. unfold erase in He.
  injection He as -> -> ->. done.
Qed.

Lemma values_skeleton (s s' : snapshot) :
  skeleton s' = skeleton s →
  (∀ p c, at_ s p = Some c → 0 ≤ val c) →
  ∀ p c, at_ s' p = Some c → 0 ≤ val c.
Proof.
  intros Hsk Hs p c' Hc'.
  destruct (skeleton_at s s' p c' Hsk Hc') as (c & Hc & He).
  unfold erase in He. injection He as _ _ He. rewrite <- He. eauto.
Qed.

Lemma checkConsistency_extends (n : nat) (s s' : snapshot) :
  grid n s → grid n s' → extends s s' → constraints s' = constraints s →
  (∀ p c, at_ s p = Some c → 0 ≤ val c) →
  (∀ p c, at_ s' p = Some c → 0 ≤ val c) →
  Forall (λ k, ∃ l g, flat n k l g) (constraints s) →
  checkConsistency s' = Ok true → checkConsistency s = Ok true.
Proof.
  intros Hg Hg' Hext Hks Hv Hv' Hflat Hs'.
  destruct (checkConsistency_grid n s Hg Hv Hflat) as (b & -> & Hb).
  rewrite <- Hks in Hflat.
  destruct (checkConsistency_grid n s' Hg' Hv' Hflat) as (b' & Hcb' & Hb').
  f_equal. apply Hb. apply (consistent_extends n s s' Hext Hks).
  apply Hb'. congruence.
Qed.

Lemma checkConsistency_skeleton (n : nat) (s s' : snapshot) :
  grid n s → (∀ p c, at_ s p = Some c → 0 ≤ val c) →
  Forall (λ k, ∃ l g, flat n k l g) (constraints s) →
  rows s' = rows s → constraints s' = constraints s →
  skeleton s' = skeleton s →
  checkConsistency s' = checkConsistency s.
Proof.
  intros Hg Hv Hflat Hr Hks Hsk.
  assert (grid n s') as Hg' by by apply (grid_skeleton n s).
  pose proof (values_skeleton s s' Hsk Hv) as Hv'.
  assert (Forall (λ k, ∃ l g, flat n k l g) (constraints s')) as Hflat'
    by by rewrite Hks.
  destruct (checkConsistency_grid n s Hg Hv Hflat) as (b & Hcb & Hb).
  destruct (checkConsistency_grid n s' Hg' Hv' Hflat') as (b' & Hcb' & Hb').
  destruct b, b'; try congruence.
  - assert (checkConsistency s' = Ok true); [|congruence].
    apply (checkConsistency_extends n s' s); try done.
    by apply extends_skeleton.
  - assert (checkConsistency s = Ok true); [|congruence].
    apply (checkConsistency_extends n s s'); try done.
    by apply extends_skeleton.
Qed.

Lemma checkConsistency_duplicates (n : nat) (s : snapshot) :
  grid n s → ¬ lines_distinct s → checkConsistency s = Ok false.
Proof.
  intros Hg Hnd. unfold checkConsistency.
  destruct (check_lines_range n s Hg) as (b & -> & Hb). simpl.
  destruct b; [|done]. destruct Hnd. by apply Hb.
Qed.

Lemma check_lines_not_distinct (n : nat) (s : snapshot) :
  grid n s → check_lines s (range 0 (rows s)) = Ok false →
  ¬ lines_distinct s.
Proof.
  intros Hg Hs Hd.
  destruct (check_lines_range n s Hg) as (b & Hb & Hiff).
  apply Hiff in Hd. congruence.
Qed.

Lemma flat_endpoint_paired (n : nat) (s : snapshot) (k : pyval)
    (l g : pos) :
  paired n k l g → flat_endpoint s k 0 1 = Raise TypeError.
Proof.
  intros [-> _]. unfold flat_endpoint. by rewrite getitem_pair_0.
Qed.

Lemma checkConsistency_paired (n : nat) (s : snapshot) (k : pyval)
    (ks : list pyval) (l g : pos) :
  grid n s → lines_distinct s → constraints s = k :: ks →
  paired n k l g → checkConsistency s = Raise TypeError.
Proof.
  intros Hg Hd Hks Hk. unfold checkConsistency.
  destruct (check_lines_range n s Hg) as (b & -> & Hb).
  apply Hb in Hd as ->. cbn [Py.bind]. rewrite Hks. cbn [check_constraints].
  by rewrite (flat_endpoint_paired n s k l g Hk).
Qed.

Lemma is_endpoint_flat (n : nat) (k : pyval) (l g : pos) (c : cell) :
  flat n k l g → is_endpoint k 0 c = Raise TypeError.
Proof. by intros [-> _]. Qed.

Section WithAccessor.

Variable getConstraints : snapshot → list pyval.

Lemma update_possibilities_flat (n : nat) (s : snapshot) (k : pyval)
    (ks : list pyval) (l g : pos) :
  grid n s → isComplete s = false → getConstraints s = k :: ks →
  flat n k l g →
  update_possibilities getConstraints s = Raise TypeError.
Proof.
  intros Hg Hcomp Hacc Hk.
  destruct (isComplete_unsolved s Hcomp) as (next & Hnext & Hat & _).
  change 0 with (Z.of_nat 0) in Hnext. apply index_nat in Hnext.
  unfold update_possibilities.
  destruct (unsolvedCells s) as [|rc rest]; [done|].
  injection Hnext as ->. rewrite fmap_cons. cbn [foldM]. rewrite Hat.
  destruct next as [[i j] c]. simpl in *.
  destruct (at_grid n s i j c Hg Hat) as [Hi Hj].
  destruct (grid_addr n s Hg i j c Hat) as [Hrow Hcol].
  destruct (eliminate_grid n s i j c Hg Hi Hj Hrow Hcol)
    as (c1 & Hc1 & _).
  unfold update_cell. rewrite Hc1, Hacc. cbn [Py.bind foldM].
  unfold tighten. by rewrite (is_endpoint_flat n k l g c1 Hk).
Qed.

Lemma try_candidates_mono (recurse recurse' : snapshot → option (res bool))
    (ns : snapshot) (r c : Z) (candidates : list Z) (out : res bool) :
  (∀ s o, recurse s = Some o → recurse' s = Some o) →
  try_candidates recurse ns r c candidates = Some out →
  try_candidates recurse' ns r c candidates = Some out.
Proof.
  intros Hrec. revert ns.
  induction candidates as [|v vs IH]; intros ns; simpl; [done|].
  destruct (setCellVal ns r c v) as [ns'|]; [|done].
  destruct (checkConsistency ns') as [[|]|]; [|apply IH|done].
  destruct (recurse ns') as [o|] eqn:Ho; [|done].
  rewrite (Hrec ns' o Ho). destruct o as [[|]|]; [done|apply IH|done].
Qed.

Lemma solve_more_fuel (fuel : nat) (s : snapshot) (out : res bool) :
  solve getConstraints fuel s = Some out →
  solve getConstraints (S fuel) s = Some out.
Proof.
  revert s out. induction fuel as [|fuel IH]; intros s out; [done|].
  intros H. cbn [solve] in H |- *.
  destruct (if isComplete s then checkConsistency s else Ok false)
    as [[|]|]; [done| |done].
  destruct (negb (isComplete s)); [|done].
  destruct (index (unsolvedCells s) 0) as [next|]; [|done].
  destruct (update_possibilities getConstraints (Snapshot.clone s))
    as [ns|]; [|done].
  revert H. apply try_candidates_mono. intros s' o. apply IH.
Qed.

Lemma solve_fuel_le (fuel fuel' : nat) (s : snapshot) (out : res bool) :
  (fuel ≤ fuel')%nat →
  solve getConstraints fuel s = Some out →
  solve getConstraints fuel' s = Some out.
Proof.
  induction 1 as [|fuel' _ IH]; [done|].
  intros H. by apply solve_more_fuel, IH.
Qed.

Lemma solve_complete (fuel : nat) (s : snapshot) :
  isComplete s = true →
  solve getConstraints (S fuel) s = Some (checkConsistency s).
Proof.
  intros Hs. cbn [solve]. rewrite Hs. simpl.
  by destruct (checkConsistency s) as [[|]|].
Qed.

Lemma solve_true_consistent (n : nat) (M : Z) (fuel : nat) (s : snapshot) :
  grid n s → in_range M s → rows s ≤ M →
  Forall (λ k, ∃ l g, flat n k l g) (constraints s) →
  (∀ s', constraints s' = constraints s →
     Forall (λ k, ∃ l g, paired n k l g) (getConstraints s')) →
  solve getConstraints fuel s = Some (Ok true) →
  checkConsistency s = Ok true.
Proof.
  intros Hg Hr HM Hflat Hacc Hs.
  destruct (checkConsistency_grid n s Hg (values_nonneg M s Hr) Hflat)
    as (b & Hb & _).
  destruct b; [done|].
  pose proof (solve_inconsistent getConstraints n M s Hg Hr HM Hflat Hacc Hb)
    as H1.
  destruct fuel as [|fuel]; [done|].
  apply (solve_fuel_le 1 (S fuel)) in H1; [congruence | lia].
Qed.

End WithAccessor.

Lemma grid_puzzle5 : grid 5 puzzle5.
Proof. apply gridb_grid. vm_compute. reflexivity. Qed.

Lemma flat_puzzle5 : Forall (λ k, ∃ l g, flat 5 k l g) (constraints puzzle5).
Proof. apply (forallb_Forall (flatb 5)); [apply flatb_flat | reflexivity]. Qed.

Lemma paired_03_00 :
  paired 5 (pair_constraint 0 3 0 0) (0, 3)%nat (0, 0)%nat.
Proof. split; [reflexivity | simpl; lia]. Qed.

Lemma extends_assign (s : snapshot) (p : pos) (c : cell) (v : Z) :
  at_ s p = Some c → val c = 0 → extends s (assign s p v).
Proof.
  intros Hc Hv q d Hd. rewrite at_assign.
  destruct (decide (p = q)) as [->|]; [|by exists d].
  rewrite Hd. simpl. eexists. split; [done|]. simpl.
  split; [done|]. split; [done|]. congruence.
Qed.

(** ** Row and column exclusion *)

(** X5: on a well-formed board, the first step of propagation for a cell
    at (i, j) returns, keeps the cell's position and value, and leaves as
    candidates, none of them twice, exactly the former candidates that
    are not a nonzero value of a cell of row i or of column j. *)
Theorem X5_eliminate_row_and_column (n : nat) (s : snapshot) (i j : nat)
    (c : cell) :
  grid n s → (i < n)%nat → (j < n)%nat →
  Cell.row c = Z.of_nat i → Cell.col c = Z.of_nat j →
  ∃ c', eliminate s c = Ok c' ∧ erase c' = erase c ∧
        NoDup (possibles c') ∧
        ∀ x, x ∈ possibles c' ↔
             x ∈ possibles c ∧
             ¬ (x ≠ 0 ∧ ∃ k d, (at_ s (i, k) = Some d ∨
                                at_ s (k, j) = Some d) ∧ val d = x).
Proof. apply eliminate_grid. Qed.

Lemma X5_eliminate_row_and_column_witness :
  ∃ c', eliminate puzzle5 (Cell.init 0 3 0) = Ok c' ∧
        NoDup (possibles c').
Proof.
  destruct (X5_eliminate_row_and_column 5 puzzle5 0 3 (Cell.init 0 3 0))
    as (c' & Hc' & _ & Hnd & _).
  - exact grid_puzzle5.
  - lia.
  - lia.
  - reflexivity.
  - reflexivity.
  - exists c'. split; [exact Hc' | exact Hnd].
Defined.

(** ** The inequality step *)

(** X6: a constraint between two other cells leaves a cell as it is, and
    neither endpoint is read. *)
Theorem X6_tighten_other_cells (n : nat) (s : snapshot) (k : pyval)
    (l g : pos) (c : cell) :
  paired n k l g →
  (Cell.row c, Cell.col c) ≠ (Z.of_nat l.1, Z.of_nat l.2) →
  (Cell.row c, Cell.col c) ≠ (Z.of_nat g.1, Z.of_nat g.2) →
  tighten s c k = Ok c.
Proof. apply tighten_elsewhere. Qed.

Lemma X6_tighten_other_cells_witness :
  tighten puzzle5 (Cell.init 1 1 0) (pair_constraint 0 3 0 0) =
  Ok (Cell.init 1 1 0).
Proof.
  apply (X6_tighten_other_cells 5 puzzle5 _ (0, 3)%nat (0, 0)%nat).
  - exact paired_03_00.
  - simpl. discriminate.
  - simpl. discriminate.
Defined.

(** X7: for the cell on the lesser side of a constraint, when the greater
    cell holds a value [b] the candidates become exactly the values from
    1 to [b - 1], whatever they were; when it holds none, the candidates
    lose the dimension and nothing else. *)
Theorem X7_tighten_lesser_side (n : nat) (s : snapshot) (k : pyval)
    (l g : pos) (c hi : cell) :
  grid n s → paired n k l g → l ≠ g →
  (Cell.row c, Cell.col c) = (Z.of_nat l.1, Z.of_nat l.2) →
  at_ s g = Some hi →
  ∃ c', tighten s c k = Ok c' ∧ erase c' = erase c ∧
        (val hi ≠ 0 → ∀ x, x ∈ possibles c' ↔ 1 ≤ x < val hi) ∧
        (val hi = 0 → NoDup (possibles c) →
         ∀ x, x ∈ possibles c' ↔ x ∈ possibles c ∧ x ≠ rows s).
Proof. apply tighten_lesser. Qed.

Lemma X7_tighten_lesser_side_witness :
  ∃ c', tighten puzzle5 (Cell.init 0 3 0) (pair_constraint 0 3 0 0) = Ok c' ∧
        erase c' = erase (Cell.init 0 3 0).
Proof.
  destruct (X7_tighten_lesser_side 5 puzzle5 (pair_constraint 0 3 0 0)
              (0, 3)%nat (0, 0)%nat (Cell.init 0 3 0) (Cell.init 0 0 0))
    as (c' & Hc' & He & _).
  - exact grid_puzzle5.
  - exact paired_03_00.
  - discriminate.
  - reflexivity.
  - reflexivity.
  - exists c'. split; [exact Hc' | exact He].
Defined.

(** X8: for the cell on the greater side of a constraint, when the lesser
    cell holds a value [a] the candidates become exactly the values from
    [a + 1] to the dimension, whatever they were; when it holds none, the
    candidates lose 1 and nothing else. *)
Theorem X8_tighten_greater_side (n : nat) (s : snapshot) (k : pyval)
    (l g : pos) (c lo : cell) :
  grid n s → paired n k l g → l ≠ g →
  (Cell.row c, Cell.col c) = (Z.of_nat g.1, Z.of_nat g.2) →
  at_ s l = Some lo →
  ∃ c', tighten s c k = Ok c' ∧ erase c' = erase c ∧
        (val lo ≠ 0 → ∀ x, x ∈ possibles c' ↔ val lo < x ≤ rows s) ∧
        (val lo = 0 → NoDup (possibles c) →
         ∀ x, x ∈ possibles c' ↔ x ∈ possibles c ∧ x ≠ 1).
Proof. apply tighten_greater. Qed.

Lemma X8_tighten_greater_side_witness :
  ∃ c', tighten puzzle5 (Cell.init 0 0 0) (pair_constraint 0 3 0 0) = Ok c' ∧
        erase c' = erase (Cell.init 0 0 0).
Proof.
  destruct (X8_tighten_greater_side 5 puzzle5 (pair_constraint 0 3 0 0)
              (0, 3)%nat (0, 0)%nat (Cell.init 0 0 0) (Cell.init 0 3 0))
    as (c' & Hc' & He & _).
  - exact grid_puzzle5.
  - exact paired_03_00.
  - discriminate.
  - reflexivity.
  - reflexivity.
  - exists c'. split; [exact Hc' | exact He].
Defined.

(** ** The hidden single of a column *)

(** X9: for a cell of column [j] with more than one candidate, none of
    them twice, the column step of propagation takes from the candidates
    those of the other cells of the column; when exactly one value is left
    the cell's candidates become that value alone, otherwise the cell is
    unchanged. *)
Theorem X9_column_hidden_single (n : nat) (s : snapshot) (i j : nat)
    (c : cell) :
  grid n s → (j < n)%nat → Cell.col c = Z.of_nat j →
  NoDup (possibles c) → (1 < length (possibles c))%nat →
  ∃ line,
    cellsByCol s (Cell.col c) = Ok line ∧
    (∀ x, x ∈ others (i, j) line ↔
          ∃ i' c', i' ≠ i ∧ at_ s (i', j) = Some c' ∧ x ∈ possibles c') ∧
    hidden_single (i, j) c (cellsByCol s (Cell.col c)) =
    Ok (if decide (length (list_difference (possibles c)
                             (others (i, j) line)) = 1%nat)
        then setPossibilities c
               (list_difference (possibles c) (others (i, j) line))
        else c).
Proof.
  intros Hgrid Hj Hcol Hnd Hlen.
  destruct (cellsByCol_grid n s Hgrid j Hj) as (line & Hline & _ & Hat).
  exists line. rewrite Hcol, Hline. split; [done|].
  split; [by apply (others_col n) | by apply hidden_single_others].
Qed.

Lemma X9_column_hidden_single_witness :
  ∃ line, cellsByCol puzzle5 0 = Ok line ∧
    ∀ x, x ∈ others (0, 0)%nat line ↔
         ∃ i' c', i' ≠ 0%nat ∧ at_ puzzle5 (i', 0%nat) = Some c' ∧
                  x ∈ possibles c'.
Proof.
  destruct (X9_column_hidden_single 5 puzzle5 0 0 (Cell.init 0 0 0))
    as (line & Hline & Hothers & _).
  - exact grid_puzzle5.
  - lia.
  - reflexivity.
  - refine (bool_decide_unpack (NoDup [1; 2; 3; 4; 5]) _).
    vm_compute. exact I.
  - simpl. lia.
  - exists line. split; [exact Hline | exact Hothers].
Defined.

Lemma unvalued_puzzle5 (st : snapshot) :
  constraints st = constraints puzzle5 →
  Forall (λ k, ∃ l g lo hi, paired 5 k l g ∧
               at_ puzzle5 l = Some lo ∧ at_ puzzle5 g = Some hi ∧
               val lo = 0 ∧ val hi = 0) (regrouped st).
Proof.
  intros Hst. unfold regrouped. rewrite Hst. simpl.
  constructor; [|constructor].
  exists (0, 3)%nat, (0, 0)%nat, (Cell.init 0 3 0), (Cell.init 0 0 0).
  split; [exact paired_03_00|]. by repeat split.
Qed.

(** ** A whole pass of propagation *)

(** X10: on a well-formed board where no cell under a constraint holds a
    value, a pass of propagation only removes candidates: every cell's
    candidates after the pass are among its candidates before. *)
Theorem X10_propagation_shrinks
    (getConstraints : snapshot → list pyval) (n : nat) (s s' : snapshot) :
  grid n s →
  (∀ st, constraints st = constraints s →
     Forall (λ k, ∃ l g lo hi, paired n k l g ∧
                  at_ s l = Some lo ∧ at_ s g = Some hi ∧
                  val lo = 0 ∧ val hi = 0) (getConstraints st)) →
  update_possibilities getConstraints s = Ok s' →
  ∀ p c c', at_ s p = Some c → at_ s' p = Some c' →
    ∀ x, x ∈ possibles c' → x ∈ possibles c.
Proof. apply update_possibilities_shrinks. Qed.

Lemma X10_propagation_shrinks_witness :
  ∃ s', update_possibilities regrouped puzzle5 = Ok s' ∧
        ∀ p c c', at_ puzzle5 p = Some c → at_ s' p = Some c' →
          ∀ x, x ∈ possibles c' → x ∈ possibles c.
Proof.
  lazymatch eval vm_compute in (update_possibilities regrouped puzzle5) with
  | Ok ?s' =>
      exists s';
      assert (update_possibilities regrouped puzzle5 = Ok s') as Hs'
        by (vm_compute; reflexivity)
  end.
  split; [exact Hs'|].
  exact (X10_propagation_shrinks regrouped 5 puzzle5 _
           grid_puzzle5 unvalued_puzzle5 Hs').
Defined.

(** X11: after a pass of propagation no unsolved cell has a candidate
    twice, whatever its candidate list held before. *)
Theorem X11_propagation_no_duplicates
    (getConstraints : snapshot → list pyval) (s s' : snapshot) (p : pos)
    (c' : cell) :
  update_possibilities getConstraints s = Ok s' →
  at_ s' p = Some c' → val c' = 0 → NoDup (possibles c').
Proof. apply update_possibilities_NoDup. Qed.

Lemma X11_propagation_no_duplicates_witness :
  ∃ s' c', update_possibilities regrouped puzzle5 = Ok s' ∧
           at_ s' (0, 3)%nat = Some c' ∧ NoDup (possibles c').
Proof.
  lazymatch eval vm_compute in (update_possibilities regrouped puzzle5) with
  | Ok ?s' =>
      exists s';
      assert (update_possibilities regrouped puzzle5 = Ok s') as Hs'
        by (vm_compute; reflexivity);
      lazymatch eval vm_compute in (at_ s' (0, 3)%nat) with
      | Some ?c' =>
          exists c';
          assert (at_ s' (0, 3)%nat = Some c') as Hc'
            by (vm_compute; reflexivity)
      end
  end.
  split; [exact Hs'|]. split; [exact Hc'|].
  exact (X11_propagation_no_duplicates regrouped puzzle5 _ _ _ Hs' Hc'
           eq_refl).
Defined.

(** X12: a pass of propagation that returns changes the verdict of
    neither check: [isComplete] is the same before and after, and on a
    well-formed board so is [checkConsistency]. *)
Theorem X12_propagation_keeps_verdicts
    (getConstraints : snapshot → list pyval) (n : nat) (s s' : snapshot) :
  update_possibilities getConstraints s = Ok s' →
  isComplete s' = isComplete s ∧
  (grid n s → (∀ p c, at_ s p = Some c → 0 ≤ val c) →
   Forall (λ k, ∃ l g, flat n k l g) (constraints s) →
   checkConsistency s' = checkConsistency s).
Proof.
  intros (Hr & Hk & Hsk)%update_possibilities_skeleton. split.
  - by apply isComplete_skeleton.
  - intros Hg Hv Hflat. by apply (checkConsistency_skeleton n).
Qed.

Lemma X12_propagation_keeps_verdicts_witness :
  ∃ s', update_possibilities regrouped puzzle5 = Ok s' ∧
        isComplete s' = isComplete puzzle5 ∧
        checkConsistency s' = checkConsistency puzzle5.
Proof.
  lazymatch eval vm_compute in (update_possibilities regrouped puzzle5) with
  | Ok ?s' =>
      exists s';
      assert (update_possibilities regrouped puzzle5 = Ok s') as Hs'
        by (vm_compute; reflexivity)
  end.
  split; [exact Hs'|].
  destruct (X12_propagation_keeps_verdicts regrouped 5 puzzle5 _ Hs')
    as [Hc Hk].
  split; [exact Hc|].
  apply Hk.
  - exact grid_puzzle5.
  - apply (values_nonneg 5). apply in_rangeb_in_range.
    vm_compute. reflexivity.
  - exact flat_puzzle5.
Defined.

(** ** The consistency check at its edges *)

(** X13: on a well-formed board with a nonzero value twice in a row or
    in a column, [checkConsistency] returns [False] before it reads a
    constraint, whatever the constraint list holds. *)
Theorem X13_duplicates_before_constraints (n : nat) (s : snapshot) :
  grid n s → ¬ lines_distinct s → checkConsistency s = Ok false.
Proof. apply checkConsistency_duplicates. Qed.

Lemma X13_duplicates_before_constraints_witness :
  checkConsistency
    (board 3 [[2; 0; 2]; [0; 0; 0]; [0; 0; 0]] [PInt 7]) = Ok false.
Proof.
  assert (grid 3 (board 3 [[2; 0; 2]; [0; 0; 0]; [0; 0; 0]] [PInt 7]))
    as Hg by (apply gridb_grid; vm_compute; reflexivity).
  apply (X13_duplicates_before_constraints 3 _ Hg).
  apply (check_lines_not_distinct 3 _ Hg). vm_compute. reflexivity.
Defined.

(** X14: on a well-formed board without a repeated value, a first
    constraint stored as a pair of positions makes [checkConsistency]
    raise [TypeError]: a list is subscripted with a tuple. *)
Theorem X14_checkConsistency_rejects_pairs (n : nat) (s : snapshot)
    (k : pyval) (ks : list pyval) (l g : pos) :
  grid n s → lines_distinct s → constraints s = k :: ks →
  paired n k l g → checkConsistency s = Raise TypeError.
Proof. apply checkConsistency_paired. Qed.

Lemma X14_checkConsistency_rejects_pairs_witness :
  checkConsistency puzzle5_paired = Raise TypeError.
Proof.
  assert (grid 5 puzzle5_paired) as Hg
    by (apply gridb_grid; vm_compute; reflexivity).
  apply (X14_checkConsistency_rejects_pairs 5 puzzle5_paired
           (pair_constraint 0 3 0 0) [] (0, 3)%nat (0, 0)%nat Hg).
  - apply (check_lines_distinct 5 _ Hg). vm_compute. reflexivity.
  - reflexivity.
  - exact paired_03_00.
Defined.

(** X15: on a well-formed board with an unsolved cell, a first constraint
    handed out as a flat tuple makes propagation raise [TypeError], an
    integer being subscripted, and [solve] raises it in turn. *)
Theorem X15_propagation_rejects_flat
    (getConstraints : snapshot → list pyval) (n : nat) (s : snapshot)
    (k : pyval) (ks : list pyval) (l g : pos) :
  grid n s → isComplete s = false → getConstraints s = k :: ks →
  flat n k l g →
  update_possibilities getConstraints s = Raise TypeError ∧
  ∀ fuel, solve getConstraints (S fuel) s = Some (Raise TypeError).
Proof.
  intros Hg Hc Hacc Hk.
  pose proof (update_possibilities_flat getConstraints n s k ks l g
                Hg Hc Hacc Hk) as Hraise.
  split; [done|]. intros fuel.
  destruct (solve_step getConstraints n s Hg Hc) as (next & _ & _ & _ & ->).
  by rewrite clone_id, Hraise.
Qed.

Lemma X15_propagation_rejects_flat_witness :
  update_possibilities stored puzzle5 = Raise TypeError ∧
  ∀ fuel, solve stored (S fuel) puzzle5 = Some (Raise TypeError).
Proof.
  apply (X15_propagation_rejects_flat stored 5 puzzle5
           (flat_constraint 0 3 0 0) [] (0, 3)%nat (0, 0)%nat).
  - exact grid_puzzle5.
  - vm_compute. reflexivity.
  - reflexivity.
  - split; [reflexivity | simpl; lia].
Defined.

(** X16: filling cells cannot repair a board: when a well-formed board
    that keeps every value of another one passes [checkConsistency], so
    does the other. *)
Theorem X16_consistency_of_part (n : nat) (s s' : snapshot) :
  grid n s → grid n s' → extends s s' → constraints s' = constraints s →
  (∀ p c, at_ s p = Some c → 0 ≤ val c) →
  (∀ p c, at_ s' p = Some c → 0 ≤ val c) →
  Forall (λ k, ∃ l g, flat n k l g) (constraints s) →
  checkConsistency s' = Ok true → checkConsistency s = Ok true.
Proof. apply checkConsistency_extends. Qed.

Lemma X16_consistency_of_part_witness :
  checkConsistency (assign puzzle5 (0, 0)%nat 3) = Ok true ∧
  checkConsistency puzzle5 = Ok true.
Proof.
  assert (checkConsistency (assign puzzle5 (0, 0)%nat 3) = Ok true) as Hs'
    by (vm_compute; reflexivity).
  split; [exact Hs'|].
  apply (X16_consistency_of_part 5 puzzle5 (assign puzzle5 (0, 0)%nat 3)).
  - exact grid_puzzle5.
  - apply gridb_grid. vm_compute. reflexivity.
  - apply (extends_assign puzzle5 (0, 0)%nat (Cell.init 0 0 0));
      reflexivity.
  - reflexivity.
  - apply (values_nonneg 5). apply in_rangeb_in_range.
    vm_compute. reflexivity.
  - apply (values_nonneg 5). apply in_rangeb_in_range.
    vm_compute. reflexivity.
  - exact flat_puzzle5.
  - exact Hs'.
Defined.

(** ** The search at its edges *)

(** X17: on a complete board [solve] clones nothing and tries nothing: it
    returns what [checkConsistency] returns, an exception included. *)
Theorem X17_solve_complete_board
    (getConstraints : snapshot → list pyval) (fuel : nat) (s : snapshot) :
  isComplete s = true →
  solve getConstraints (S fuel) s = Some (checkConsistency s).
Proof. apply solve_complete. Qed.

Lemma X17_solve_complete_board_witness :
  solve stored 1 full5 = Some (checkConsistency full5).
Proof.
  apply (X17_solve_complete_board stored 0 full5).
  vm_compute. reflexivity.
Defined.

(** X19: [solve] returns [True] only on a board that passes
    [checkConsistency] itself: a well-formed board that fails the check
    is never reported solvable. *)
Theorem X19_solve_true_only_if_consistent
    (getConstraints : snapshot → list pyval) (n : nat) (M : Z) (fuel : nat)
    (s : snapshot) :
  grid n s → in_range M s → rows s ≤ M →
  Forall (λ k, ∃ l g, flat n k l g) (constraints s) →
  (∀ s', constraints s' = constraints s →
     Forall (λ k, ∃ l g, paired n k l g) (getConstraints s')) →
  solve getConstraints fuel s = Some (Ok true) →
  checkConsistency s = Ok true.
Proof. apply solve_true_consistent. Qed.

Lemma X19_solve_true_only_if_consistent_witness :
  checkConsistency blank1 = Ok true.
Proof.
  apply (X19_solve_true_only_if_consistent stored 1 5 3 blank1).
  - apply gridb_grid. vm_compute. reflexivity.
  - apply in_rangeb_in_range. vm_compute. reflexivity.
  - simpl. lia.
  - simpl. constructor.
  - apply stored_no_constraints. reflexivity.
  - vm_compute. reflexivity.
Defined.

(** X20: when the first unsolved cell has no candidate left, the call
    returns [False] once propagation has run: nothing is tried and no
    nested call is made. *)
Theorem X20_solve_dead_end
    (getConstraints : snapshot → list pyval) (n fuel : nat)
    (s ns : snapshot) (next : ref) :
  grid n s → isComplete s = false →
  index (unsolvedCells s) 0 = Ok next → possibles next.2 = [] →
  update_possibilities getConstraints (Snapshot.clone s) = Ok ns →
  solve getConstraints (S fuel) s = Some (Ok false).
Proof.
  intros Hg Hc Hnext Hdom Hns.
  destruct (solve_step getConstraints n s Hg Hc)
    as (next' & Hnext' & _ & _ & ->).
  assert (next' = next) as -> by congruence.
  by rewrite Hns, Hdom.
Qed.

Lemma X20_solve_dead_end_witness :
  solve stored 1
    (update_at blank1 (0, 0)%nat (λ c, setPossibilities c [])) =
  Some (Ok false).
Proof.
  lazymatch eval vm_compute in
    (update_possibilities stored (Snapshot.clone
       (update_at blank1 (0, 0)%nat (λ c, setPossibilities c [])))) with
  | Ok ?ns =>
      apply (X20_solve_dead_end stored 1 0 _ ns
               ((0, 0)%nat, setPossibilities (Cell.init 0 0 0) []))
  end.
  - apply gridb_grid. vm_compute. reflexivity.
  - vm_compute. reflexivity.
  - vm_compute. reflexivity.
  - reflexivity.
  - vm_compute. reflexivity.
Defined.

Lemma cross_out_not_others (p : pos) (line : list ref) (np : list Z)
    (x : Z) (rc : ref) :
  x ∈ cross_out p np line → rc ∈ line → rc.1 ≠ p → x ∉ possibles rc.2.
Proof.
  revert np. induction line as [|rc' line IH]; intros np Hx Hrc Hp.
  { by apply elem_of_nil in Hrc. }
  cbn [cross_out] in Hx.
  destruct (bool_decide (rc'.1 ≠ p)) eqn:Hd.
  - destruct (_ =? _)%nat eqn:Hlen.
    + apply Nat.eqb_eq, nil_length_inv in Hlen. rewrite Hlen in Hx.
      by apply elem_of_nil in Hx.
    + apply elem_of_cons in Hrc as [->|Hrc]; [|by apply (IH _ Hx)].
      apply cross_out_subset, elem_of_set_difference in Hx as [_ Hx].
      exact Hx.
  - apply bool_decide_eq_false in Hd.
    apply elem_of_cons in Hrc as [->|Hrc]; [done|].
    destruct (_ =? _)%nat eqn:Hlen; [|by apply (IH _ Hx)].
    apply Nat.eqb_eq, nil_length_inv in Hlen. rewrite Hlen in Hx.
    by apply elem_of_nil in Hx.
Qed.

Lemma hidden_single_blocked (p : pos) (c : cell) (line : list ref)
    (rc : ref) :
  rc ∈ line → rc.1 ≠ p →
  (∀ x, x ∈ possibles c → x ∈ possibles rc.2) →
  hidden_single p c (Ok line) = Ok c.
Proof.
  intros Hrc Hp Hsub. unfold hidden_single.
  destruct (_ <? _)%nat; [|done]. simpl.
  destruct (cross_out p (getPossibilities c) line) as [|x l] eqn:Hco;
    [done|].
  assert (x ∈ cross_out p (getPossibilities c) line) as Hx
    by (rewrite Hco; left).
  destruct (cross_out_not_others p line _ x rc Hx Hrc Hp).
  apply Hsub. by apply cross_out_subset in Hx.
Qed.

Section WithAccessor.

Variable getConstraints : snapshot → list pyval.

Lemma solve_sound_range (n : nat) (M : Z) (fuel : nat) (s : snapshot) :
  grid n s → in_range M s → rows s ≤ M →
  solve getConstraints fuel s = Some (Ok true) →
  ∃ s', extends s s' ∧ isComplete s' = true ∧
        checkConsistency s' = Ok true ∧ in_range M s'.
Proof.
  revert s. induction fuel as [|fuel IH]; intros s Hgrid Hr HM; [done|].
  destruct (isComplete s) eqn:Hcomp.
  - cbn [solve]. rewrite Hcomp. simpl.
    destruct (checkConsistency s) as [[|]|] eqn:Hcons; try done.
    intros _. exists s. split; [apply extends_refl | done].
  - destruct (solve_step getConstraints n s Hgrid Hcomp)
      as (next & _ & Hat & Hval & Hstep).
    rewrite Hstep, clone_id.
    destruct (update_possibilities _ s) as [ns|] eqn:Hns; [|done].
    intros (v & Hv & Hcons & Hrec)%first_success_true.
    destruct (trial_board getConstraints n s ns next.1 next.2 v
                Hgrid Hat Hval Hns) as (Hg & Hks & Hext & _ & Hin).
    destruct (Hr _ _ Hat) as [_ Hdom]. specialize (Hdom v Hv).
    specialize (Hin M Hr HM ltac:(lia)).
    assert (rows (assign ns next.1 v) ≤ M) as HM'.
    { destruct Hg as [-> _ _ _]. destruct Hgrid as [Hrows _ _ _]. lia. }
    destruct (IH _ Hg Hin HM' Hrec) as (s' & Hext' & Hc' & Hcons' & Hr').
    exists s'. split; [by eapply extends_trans | done].
Qed.

End WithAccessor.

(** ** A clue in the line *)

(** X21: the hidden-single step leaves a cell unchanged as soon as some
    other cell of the line has all of the cell's candidates among its
    own, as a cell that came out of the constructor with 1 to 5 has on a
    board of dimension 5. *)
Theorem X21_hidden_single_blocked (p : pos) (c : cell) (line : list ref)
    (rc : ref) :
  rc ∈ line → rc.1 ≠ p →
  (∀ x, x ∈ possibles c → x ∈ possibles rc.2) →
  hidden_single p c (Ok line) = Ok c.
Proof. apply hidden_single_blocked. Qed.

Lemma X21_hidden_single_blocked_witness :
  hidden_single (0, 0)%nat (setPossibilities (Cell.init 0 0 0) [3; 4])
    (Ok [((0, 0)%nat, setPossibilities (Cell.init 0 0 0) [3; 4]);
         ((0, 1)%nat, Cell.init 0 1 1);
         ((0, 2)%nat, setPossibilities (Cell.init 0 2 0) [1; 2])]) =
  Ok (setPossibilities (Cell.init 0 0 0) [3; 4]).
Proof.
  apply (X21_hidden_single_blocked _ _ _ ((0, 1)%nat, Cell.init 0 1 1)).
  - right. left.
  - simpl. discriminate.
  - simpl. intros x Hx.
    apply elem_of_cons in Hx as [->|Hx]; [by repeat constructor|].
    apply elem_of_cons in Hx as [->|Hx]; [by repeat constructor|].
    by apply elem_of_nil in Hx.
Defined.

(** ** The board behind a success *)

(** X22: when [solve] returns [True] on a well-formed board with values
    and candidates in range, the complete and consistent board behind the
    answer keeps every value of the given board and holds a value from 1
    to the bound in every cell. *)
Theorem X22_solution_in_range
    (getConstraints : snapshot → list pyval) (n : nat) (M : Z) (fuel : nat)
    (s : snapshot) :
  grid n s → in_range M s → rows s ≤ M →
  solve getConstraints fuel s = Some (Ok true) →
  ∃ s', extends s s' ∧ isComplete s' = true ∧
        checkConsistency s' = Ok true ∧
        ∀ p c, at_ s' p = Some c → 1 ≤ val c ≤ M.
Proof.
  intros Hg Hr HM Hs.
  destruct (solve_sound_range getConstraints n M fuel s Hg Hr HM Hs)
    as (s' & Hext & Hc & Hcons & Hr').
  exists s'. split; [done|]. split; [done|]. split; [done|].
  intros p c Hpc. destruct (Hr' p c Hpc) as [Hv _].
  assert (val c ≠ 0); [|lia]. intros Hz.
  assert (isComplete s' = false) by (apply isComplete_false; eauto).
  congruence.
Qed.

Lemma X22_solution_in_range_witness :
  ∃ s', extends blank1 s' ∧ isComplete s' = true ∧
        checkConsistency s' = Ok true ∧
        ∀ p c, at_ s' p = Some c → 1 ≤ val c ≤ 5.
Proof.
  apply (X22_solution_in_range stored 1 5 3 blank1).
  - apply gridb_grid. vm_compute. reflexivity.
  - apply in_rangeb_in_range. vm_compute. reflexivity.
  - simpl. lia.
  - vm_compute. reflexivity.
Defined.
